(** * create_game.py: the Timberman page generator

    A shallow embedding of [src/create_game.py]: the tree generator
    [generate_tree], the helper [create_gif_copy] and the top-level loop that
    fills [sequence], followed by the properties of the generated tree and of
    the sequence built from it.

    Conventions of the embedding:
    - a Python [str] is a [string]; a one-character [str] taken out of it is
      an [ascii]; the list of one-character strings that [generate_tree]
      grows is a [list ascii], and [''.join] is [string_of_list_ascii];
    - a Python [int] is a [Z]; an index handed out by [enumerate] is a [nat];
    - an exception is a value [Raise e] of type [result];
    - the global random generator is an explicit [rng] threaded through the
      calls that draw from it;
    - the effects of the script on its globals and on the file system are a
      [state]: the list [sequence] and the calls made to [shutil.copyfile]. *)

From Stdlib Require Import ZArith List String Ascii Bool Arith Lia.
From Stdlib Require Import DecimalNat DecimalString.
From Equations Require Import Equations.
Import ListNotations.

Set Implicit Arguments.

(** ** Python primitives used by the script *)

Module Py.

Inductive exn : Type :=
| ValueError (msg : string)
| IndexError.

Inductive result (A : Type) : Type :=
| Ok (a : A)
| Raise (e : exn).

Arguments Ok {A} a.
Arguments Raise {A} e.

Definition bind {A B : Type} (r : result A) (k : A -> result B) : result B :=
  match r with
  | Ok a => k a
  | Raise e => Raise e
  end.

(** The random generator: an arbitrary infinite supply of raw draws and
    the number of draws consumed so far. *)
Record rng : Type := { draws : nat -> nat; pos : nat }.

(** [random._randbelow(n)]: some integer in [0, n). *)
Definition randbelow (g : rng) (n : nat) : nat * rng :=
  (draws g (pos g) mod n, {| draws := draws g; pos := S (pos g) |}).

(** [random.choice(seq)] on the non-empty sequence [x :: xs]:
    [seq[randbelow(len(seq))]]. *)
Definition choice {A : Type} (g : rng) (x : A) (xs : list A) : A * rng :=
  let (i, g') := randbelow g (List.length (x :: xs)) in
  (nth i (x :: xs) x, g').

(** [l[-1]] on a list: the element at [len(l) - 1], absent on []. *)
Definition last_item {A : Type} (l : list A) : option A :=
  nth_error l (List.length l - 1).

(** [s[i]] on a string, for a non-negative index. *)
Definition getitem (s : string) (i : nat) : result ascii :=
  match String.get i s with
  | Some c => Ok c
  | None => Raise IndexError
  end.

Fixpoint enumerate_from {A : Type} (start : nat) (l : list A) : list (nat * A) :=
  match l with
  | [] => []
  | x :: l' => (start, x) :: enumerate_from (S start) l'
  end.

(** [enumerate(s)]. *)
Definition enumerate (s : string) : list (nat * ascii) :=
  enumerate_from 0 (list_ascii_of_string s).

(** [f"{num}"] for a non-negative integer: its decimal numeral. *)
Definition str_of_nat (num : nat) : string :=
  NilEmpty.string_of_uint (Nat.to_uint num).

End Py.

Import Py.

Declare Scope py_scope.
Notation "x <- e ;; k" := (bind e (fun x => k))
  (at level 61, e at next level, right associativity) : py_scope.
Open Scope py_scope.
Open Scope string_scope.

(** ** The tree generator *)

(** The [while len(tree) < length - 2] loop of [generate_tree]. Every round
    appends one symbol, so [length - 2 - len(tree)] decreases. *)
Equations? while_loop (length : Z) (tree : list ascii) (g : rng)
  : result (list ascii) * rng
  by wf (Z.to_nat (length - 2 - Z.of_nat (List.length tree))) lt :=
  while_loop length tree g :=
    match Z_lt_dec (Z.of_nat (List.length tree)) (length - 2) with
    | left _ =>
        match last_item tree with
        | None => (Raise IndexError, g)
        | Some b =>
            if Ascii.eqb b "N"
            then let '(c, g') := choice g "R"%char ["L"%char] in
                 while_loop length (tree ++ [c]) g'
            else while_loop length (tree ++ ["N"%char]) g
        end
    | right _ => (Ok tree, g)
    end.
Proof.
  all: rewrite length_app; simpl; lia.
Qed.

Definition generate_tree (length : Z) (g : rng) : result string * rng :=
  if ((length <? 5) || (length mod 2 =? 0))%Z
  then (Raise (ValueError "Length must be an odd number and at least 5"), g)
  else
    match while_loop length ["N"%char] g with
    | (Ok tree, g') =>
        (Ok (string_of_list_ascii ((tree ++ ["R"%char]) ++ ["N"%char])), g')
    | (Raise e, g') => (Raise e, g')
    end.

(** ** The sequence builder *)

(** One entry of [sequence]:
    [[[correct_button, main_gif_basename], [wrong_button, death_gif_basename]]]. *)
Definition step : Type := (string * string) * (string * string).

Definition correct_button (d : step) : string := fst (fst d).
Definition main_gif_basename (d : step) : string := snd (fst d).
Definition wrong_button (d : step) : string := fst (snd d).
Definition death_gif_basename (d : step) : string := snd (snd d).

(** What the loop changes: the global list [sequence] and the file system,
    seen as the calls [shutil.copyfile(src, dst)] made so far, oldest first. *)
Record state : Type := {
  sequence : list step;
  copyfile : list (string * string)
}.

Definition sequence_append (st : state) (d : step) : state :=
  {| sequence := sequence st ++ [d]; copyfile := copyfile st |}.

Definition shutil_copyfile (src dst : string) (st : state) : state :=
  {| sequence := sequence st; copyfile := copyfile st ++ [(src, dst)] |}.

Definition create_gif_copy (name : string) (num : nat) (st : state) : state :=
  shutil_copyfile
    ("static/game_frames/" ++ name ++ ".gif")
    ("static/game_frame_copies/" ++ name ++ "_" ++ str_of_nat num ++ ".gif")
    st.

Definition window : Type := ascii * ascii * ascii.

(** A [case] of the [match] statement: the subject equals the pattern, a
    tuple of three literals, component by component. *)
Definition case_ (subject pattern : window) : bool :=
  let '(a, b, c) := subject in
  let '(p, q, r) := pattern in
  (Ascii.eqb a p && Ascii.eqb b q && Ascii.eqb c r)%bool.

(** The [match (block, next_block, next_next_block)] statement. The cases are
    tried in order and there is no wildcard case. *)
Definition match_blocks (w : window) (index : nat) (st : state) : state :=
  if case_ w ("L", "N", "L")%char then
    create_gif_copy "LNL" index (sequence_append st (("R", "LNL"), ("L", "LN_DEATH")))
  else if case_ w ("L", "N", "R")%char then
    create_gif_copy "LNR" index (sequence_append st (("R", "LNR"), ("L", "LN_DEATH")))
  else if case_ w ("R", "N", "L")%char then
    create_gif_copy "RNL" index (sequence_append st (("L", "RNL"), ("R", "RN_DEATH")))
  else if case_ w ("R", "N", "R")%char then
    create_gif_copy "RNR" index (sequence_append st (("L", "RNR"), ("R", "RN_DEATH")))
  else if case_ w ("N", "L", "N")%char then
    create_gif_copy "NLN" index (sequence_append st (("R", "NLN"), ("L", "NLN_DEATH")))
  else if case_ w ("N", "R", "N")%char then
    create_gif_copy "NRN" index (sequence_append st (("L", "NRN"), ("R", "NRN_DEATH")))
  else st.

(** [len(tree)], as the integer the script compares indices with. *)
Definition len (tree : string) : Z := Z.of_nat (String.length tree).

Definition next_block (tree : string) (index : nat) : result ascii :=
  getitem tree (index + 1).

Definition next_next_block (tree : string) (index : nat) : result ascii :=
  if (Z.of_nat index =? len tree - 2)%Z
  then Ok "L"%char
  else getitem tree (index + 2).

(** The subject of the [match] for one loop item. *)
Definition blocks (tree : string) (index : nat) (block : ascii) : result window :=
  nb <- next_block tree index ;;
  nnb <- next_next_block tree index ;;
  Ok (block, nb, nnb).

(** The body of the [for] loop. *)
Definition body (tree : string) (index : nat) (block : ascii) (st : state)
  : result state :=
  if (Z.of_nat index =? len tree - 1)%Z
  then Ok st
  else
    w <- blocks tree index block ;;
    Ok (match_blocks w index st).

Fixpoint for_loop (tree : string) (items : list (nat * ascii)) (st : state)
  : result state :=
  match items with
  | [] => Ok st
  | (index, block) :: rest =>
      st' <- body tree index block st ;;
      for_loop tree rest st'
  end.

(** [sequence = []], on the freshly cleared copies folder. *)
Definition initial : state := {| sequence := []; copyfile := [] |}.

(** The loop of the script on a given [tree]. *)
Definition build (tree : string) : result state :=
  for_loop tree (enumerate tree) initial.

(** The script: [tree = generate_tree(101)], then the loop. *)
Definition script (g : rng) : result state * rng :=
  match generate_tree 101 g with
  | (Ok tree, g') => (build tree, g')
  | (Raise e, g') => (Raise e, g')
  end.

(** ** Vocabulary of the properties *)

Definition direction (c : ascii) : Prop := c = "L"%char \/ c = "R"%char.

Definition symbol (c : ascii) : Prop := c = "N"%char \/ direction c.

(** No two direction symbols are adjacent. *)
Definition directions_apart (tree : string) : Prop :=
  forall i a b,
    String.get i tree = Some a -> String.get (S i) tree = Some b ->
    ~ (direction a /\ direction b).

(** Every direction symbol is immediately followed by N. *)
Definition directions_followed_by_N (tree : string) : Prop :=
  forall i a,
    String.get i tree = Some a -> direction a ->
    String.get (S i) tree = Some "N"%char.

(** N at every even index, L or R at every odd index. *)
Definition alternates (l : list ascii) : Prop :=
  forall i c,
    nth_error l i = Some c ->
    if Nat.even i then c = "N"%char else direction c.

Definition strictly_alternates (tree : string) : Prop :=
  forall i c,
    String.get i tree = Some c ->
    if Nat.even i then c = "N"%char else direction c.

(** The invariants of a tree as the specification lists them: symbols over
    N, L, R; an odd length, at least 5; N first and last; every direction
    symbol immediately followed by N; R second to last. *)
Record tree_invariants (tree : string) : Prop := {
  inv_symbols : forall i c, String.get i tree = Some c -> symbol c;
  inv_length : (5 <= len tree)%Z /\ Z.Odd (len tree);
  inv_first : String.get 0 tree = Some "N"%char;
  inv_last : String.get (String.length tree - 1) tree = Some "N"%char;
  inv_followed : directions_followed_by_N tree;
  inv_penultimate : String.get (String.length tree - 2) tree = Some "R"%char
}.

(** No two N symbols are adjacent. *)
Definition N_apart (tree : string) : Prop :=
  forall i,
    String.get i tree = Some "N"%char ->
    String.get (S i) tree <> Some "N"%char.

(** The lookaside table of the specification, row by row:
    window, then (correct choice, success asset), (wrong choice, failure
    asset). *)
Definition lookaside_table : list (window * step) :=
  [ (("L", "N", "L")%char, (("R", "LNL"), ("L", "LN_DEATH")));
    (("L", "N", "R")%char, (("R", "LNR"), ("L", "LN_DEATH")));
    (("R", "N", "L")%char, (("L", "RNL"), ("R", "RN_DEATH")));
    (("R", "N", "R")%char, (("L", "RNR"), ("R", "RN_DEATH")));
    (("N", "L", "N")%char, (("R", "NLN"), ("L", "NLN_DEATH")));
    (("N", "R", "N")%char, (("L", "NRN"), ("R", "NRN_DEATH"))) ].

(** The row of the table for a window, if there is one. *)
Definition lookaside (w : window) : option step :=
  option_map snd (find (fun row => case_ w (fst row)) lookaside_table).

(** The window of the specification at index [i]: [tree[i]], [tree[i+1]]
    and then the sentinel L at the second-to-last index, [tree[i+2]] at the
    others. The last index has no window. *)
Definition window_at (tree : string) (i : nat) : option window :=
  match String.get i tree, String.get (i + 1) tree with
  | Some cur, Some next =>
      if (i + 2 =? String.length tree)%nat
      then Some (cur, next, "L"%char)
      else option_map (fun nextNext => (cur, next, nextNext))
                      (String.get (i + 2) tree)
  | _, _ => None
  end.

(** The step descriptor that index [i] contributes, if any. *)
Definition descriptor_at (tree : string) (i : nat) : option step :=
  match window_at tree i with
  | Some w => lookaside w
  | None => None
  end.

(** The matched positions among [idxs], in order, each with its descriptor. *)
Definition appended_on (tree : string) (idxs : list nat) : list (nat * step) :=
  flat_map (fun i => match descriptor_at tree i with
                     | Some d => [(i, d)]
                     | None => []
                     end) idxs.

Definition appended (tree : string) : list (nat * step) :=
  appended_on tree (seq 0 (String.length tree)).

(** The request to the asset store for asset [name] at index [i]: copy
    [<name>.gif] of the frames folder to [<name>_<i>.gif] of the copies
    folder. *)
Definition copy_request (name : string) (i : nat) : string * string :=
  ("static/game_frames/" ++ name ++ ".gif",
   "static/game_frame_copies/" ++ name ++ "_" ++ str_of_nat i ++ ".gif").

Definition request_of (p : nat * step) : string * string :=
  copy_request (main_gif_basename (snd p)) (fst p).

(** One of the two buttons is L and the other is R. *)
Definition complementary (a b : string) : Prop :=
  (a = "L" /\ b = "R") \/ (a = "R" /\ b = "L").

(** The button opposite to a direction symbol. *)
Definition opposite (c : ascii) : option string :=
  if Ascii.eqb c "L" then Some "R"
  else if Ascii.eqb c "R" then Some "L"
  else None.

(** The first letter of an asset name. *)
Definition first_letter (name : string) : option ascii := String.get 0 name.

Definition request_eq_dec (x y : string * string) : {x = y} + {x <> y}.
Proof. decide equality; apply string_dec. Defined.

(** On window [w] the match statement emits descriptor [d]: whatever the
    index and the state, it appends exactly [d] to [sequence]. *)
Definition emits (w : window) (d : step) : Prop :=
  forall index st,
    sequence (match_blocks w index st) = (sequence st ++ [d])%list.

(** The symbol that [random.choice(['R', 'L'])] returns on the raw draw [r]:
    the element of index [r mod 2]. *)
Definition pick (r : nat) : ascii :=
  nth (r mod 2) ["R"%char; "L"%char] "R"%char.

(** A random generator whose draws spell the direction symbols of [tree]:
    the k-th draw selects the symbol that [tree] has at index 2k+1. *)
Definition rng_for (tree : string) : rng :=
  {| draws := fun k =>
       match String.get (2 * k + 1) tree with
       | Some c => if Ascii.eqb c "R" then 0%nat else 1%nat
       | None => 0%nat
       end;
     pos := 0 |}.

(** The names that the match statement gives to [create_gif_copy]. *)
Definition frames : list string :=
  ["LNL"; "LNR"; "RNL"; "RNR"; "NLN"; "NRN"].

(** The three symbols of a window, as a string. *)
Definition spell (w : window) : string :=
  let '(a, b, c) := w in String a (String b (String c "")).

(** N, direction, N or direction, N, direction. *)
Definition alternating_window (w : window) : Prop :=
  let '(a, b, c) := w in
  (a = "N"%char /\ direction b /\ c = "N"%char) \/
  (direction a /\ b = "N"%char /\ direction c).

(** The direction symbol of a window that stands for the branch next to
    the player: the middle symbol when the window starts with N, the first
    symbol otherwise. *)
Definition branch (w : window) : ascii :=
  let '(a, b, _) := w in if Ascii.eqb a "N" then b else a.

(** The death animation that goes with a window: named after the whole
    window when it starts with N, after its first two symbols otherwise. *)
Definition death_name (w : window) : string :=
  let '(a, b, c) := w in
  (if Ascii.eqb a "N" then spell w else String a (String b "")) ++ "_DEATH".

(** A random generator to run the script on: the k-th raw draw is k. *)
Definition counting_rng : rng := {| draws := fun k => k; pos := 0 |}.

(** * Properties *)

(** ** The script on concrete inputs *)

Example generate_tree_9 :
  generate_tree 9 counting_rng =
    (Ok "NRNLNRNRN", {| draws := draws counting_rng; pos := 3 |}).
Proof. reflexivity. Qed.

Example generate_tree_3 :
  generate_tree 3 counting_rng =
    (Raise (ValueError "Length must be an odd number and at least 5"),
     counting_rng).
Proof. reflexivity. Qed.

Example build_NRNRN :
  build "NRNRN" =
    Ok {| sequence :=
            [ (("L", "NRN"), ("R", "NRN_DEATH"));
              (("L", "RNR"), ("R", "RN_DEATH"));
              (("L", "NRN"), ("R", "NRN_DEATH"));
              (("L", "RNL"), ("R", "RN_DEATH")) ];
          copyfile :=
            [ ("static/game_frames/NRN.gif", "static/game_frame_copies/NRN_0.gif");
              ("static/game_frames/RNR.gif", "static/game_frame_copies/RNR_1.gif");
              ("static/game_frames/NRN.gif", "static/game_frame_copies/NRN_2.gif");
              ("static/game_frames/RNL.gif", "static/game_frame_copies/RNL_3.gif") ] |}.
Proof. reflexivity. Qed.

Example build_NNNRN :
  build "NNNRN" =
    Ok {| sequence :=
            [ (("L", "NRN"), ("R", "NRN_DEATH"));
              (("L", "RNL"), ("R", "RN_DEATH")) ];
          copyfile :=
            [ ("static/game_frames/NRN.gif", "static/game_frame_copies/NRN_2.gif");
              ("static/game_frames/RNL.gif", "static/game_frame_copies/RNL_3.gif") ] |}.
Proof. reflexivity. Qed.

(** ** Strings as character lists *)

Lemma get_nth_error (s : string) :
  forall i, String.get i s = nth_error (list_ascii_of_string s) i.
Proof.
  induction s as [|a s IH]; intros [|i]; simpl; auto.
Qed.

Lemma length_list_ascii (s : string) :
  String.length s = List.length (list_ascii_of_string s).
Proof.
  induction s as [|a s IH]; simpl; congruence.
Qed.

Lemma get_joined (l : list ascii) (i : nat) :
  String.get i (string_of_list_ascii l) = nth_error l i.
Proof.
  rewrite get_nth_error, list_ascii_of_string_of_list_ascii. reflexivity.
Qed.

Lemma length_joined (l : list ascii) :
  String.length (string_of_list_ascii l) = List.length l.
Proof.
  rewrite length_list_ascii, list_ascii_of_string_of_list_ascii. reflexivity.
Qed.

Lemma get_Some_lt (s : string) (i : nat) (c : ascii) :
  String.get i s = Some c -> (i < String.length s)%nat.
Proof.
  rewrite get_nth_error, length_list_ascii. intros H.
  apply nth_error_Some. congruence.
Qed.

Lemma get_lt_Some (s : string) (i : nat) :
  (i < String.length s)%nat -> exists c, String.get i s = Some c.
Proof.
  rewrite get_nth_error, length_list_ascii. intros H.
  destruct (nth_error (list_ascii_of_string s) i) eqn:E; eauto.
  apply nth_error_None in E. lia.
Qed.

(** ** The tree generator *)

Section Generator.

Lemma direction_not_N (c : ascii) : direction c -> Ascii.eqb c "N" = false.
Proof. intros [-> | ->]; reflexivity. Qed.

Lemma choice_direction (g : rng) : direction (fst (choice g "R"%char ["L"%char])).
Proof.
  unfold choice, randbelow. cbn [fst].
  destruct (Nat.modulo _ _) as [|[|k]]; simpl.
  - right; reflexivity.
  - left; reflexivity.
  - destruct k; right; reflexivity.
Qed.

Lemma last_item_snoc (A : Type) (l : list A) (x : A) :
  last_item (l ++ [x]) = Some x.
Proof.
  unfold last_item. rewrite length_app. simpl.
  replace (List.length l + 1 - 1)%nat with (List.length l) by lia.
  rewrite nth_error_app2, Nat.sub_diag by lia. reflexivity.
Qed.

Lemma last_item_nonempty (A : Type) (l : list A) :
  l <> [] -> exists b, last_item l = Some b /\ nth_error l (List.length l - 1) = Some b.
Proof.
  intros Hne. unfold last_item.
  destruct (nth_error l (List.length l - 1)) eqn:E; eauto.
  apply nth_error_None in E. destruct l; [congruence | simpl in E; lia].
Qed.

(** Appending the symbol that the parity of the next index asks for keeps
    the alternation. *)
Lemma alternates_snoc (l : list ascii) (c : ascii) :
  alternates l ->
  (if Nat.even (List.length l) then c = "N"%char else direction c) ->
  alternates (l ++ [c]).
Proof.
  intros Hl Hc i x Hi.
  destruct (Nat.lt_ge_cases i (List.length l)) as [Hlt | Hge].
  - rewrite nth_error_app1 in Hi by assumption. apply Hl; assumption.
  - rewrite nth_error_app2 in Hi by assumption.
    destruct (i - List.length l)%nat as [|k] eqn:E; simpl in Hi.
    + assert (i = List.length l) by lia. subst i.
      injection Hi as <-. assumption.
    + destruct k; discriminate.
Qed.

(** The last symbol of an alternating list tells the parity of its length. *)
Lemma alternates_last (l : list ascii) (b : ascii) :
  alternates l -> l <> [] ->
  nth_error l (List.length l - 1) = Some b ->
  Nat.even (List.length l) = negb (Ascii.eqb b "N").
Proof.
  intros Hl Hne Hb. specialize (Hl _ _ Hb).
  assert (Hlen : List.length l = S (List.length l - 1)).
  { destruct l; [congruence | simpl; lia]. }
  rewrite Hlen, Nat.even_succ, <- Nat.negb_even.
  destruct (Nat.even (List.length l - 1)).
  - subst b. reflexivity.
  - rewrite direction_not_N by assumption. reflexivity.
Qed.

(** The loop ends, without an exception, on an alternating list of
    [max(len(tree), length - 2)] symbols. *)
Lemma while_loop_alternates (length : Z) :
  forall (n : nat) (tree : list ascii) (g : rng),
    n = Z.to_nat (length - 2 - Z.of_nat (List.length tree)) ->
    tree <> [] -> alternates tree ->
    exists tree' g',
      while_loop length tree g = (Ok tree', g') /\
      alternates tree' /\
      Z.of_nat (List.length tree') =
        Z.max (Z.of_nat (List.length tree)) (length - 2).
Proof.
  induction n as [|n IH]; intros tree g Hn Hne Halt;
    rewrite while_loop_equation_1;
    destruct (Z_lt_dec _ _) as [Hlt | Hge]; try lia.
  - exists tree, g. repeat split; [assumption | lia].
  - destruct (last_item_nonempty Hne) as (b & Hb & Hnth). rewrite Hb.
    pose proof (alternates_last Halt Hne Hnth) as Hpar.
    destruct (Ascii.eqb b "N") eqn:Eb; simpl in Hpar.
    + pose proof (choice_direction g) as Hdir.
      destruct (choice g "R"%char ["L"%char]) as [c g1]. simpl in Hdir.
      destruct (IH (tree ++ [c])%list g1) as (tree' & g' & Hrun & Halt' & Hlen').
      * rewrite length_app; simpl; lia.
      * intros E; apply app_eq_nil in E; destruct E; discriminate.
      * apply alternates_snoc; [assumption | rewrite Hpar; assumption].
      * exists tree', g'. repeat split; try assumption.
        rewrite Hlen', length_app. simpl. lia.
    + destruct (IH (tree ++ ["N"%char])%list g) as (tree' & g' & Hrun & Halt' & Hlen').
      * rewrite length_app; simpl; lia.
      * intros E; apply app_eq_nil in E; destruct E; discriminate.
      * apply alternates_snoc; [assumption | rewrite Hpar; reflexivity].
      * exists tree', g'. repeat split; try assumption.
        rewrite Hlen', length_app. simpl. lia.
Qed.

Lemma guard_passes (length : Z) :
  (5 <= length)%Z -> Z.Odd length ->
  ((length <? 5) || (length mod 2 =? 0))%Z = false.
Proof.
  intros H5 Hodd. apply orb_false_iff. split.
  - apply Z.ltb_ge. assumption.
  - apply Z.eqb_neq. destruct Hodd as [k ->].
    Z.to_euclidean_division_equations. lia.
Qed.

Lemma even_false_of_Z (n : nat) (k : Z) :
  Z.of_nat n = (2 * k + 1)%Z -> Nat.even n = false.
Proof.
  intros H. assert (E : n = (1 + 2 * Z.to_nat k)%nat) by lia.
  rewrite E, Nat.even_add_mul_2. reflexivity.
Qed.

Lemma even_true_of_Z (n : nat) (k : Z) :
  Z.of_nat n = (2 * k)%Z -> Nat.even n = true.
Proof.
  intros H. assert (E : n = (0 + 2 * Z.to_nat k)%nat) by lia.
  rewrite E, Nat.even_add_mul_2. reflexivity.
Qed.

Lemma alternates_singleton : alternates ["N"%char].
Proof.
  intros [|[|i]] c H; simpl in H; try discriminate.
  injection H as <-. reflexivity.
Qed.

(** On an odd [length >= 5] the generator returns a string of [length]
    symbols that strictly alternates and has R at index [length - 2]. *)
Lemma generate_tree_shape (length : Z) (g : rng) :
  (5 <= length)%Z -> Z.Odd length ->
  exists tree g',
    generate_tree length g = (Ok tree, g') /\
    len tree = length /\
    strictly_alternates tree /\
    String.get (Z.to_nat (length - 2)) tree = Some "R"%char.
Proof.
  intros H5 Hodd. unfold generate_tree. rewrite guard_passes by assumption.
  destruct (@while_loop_alternates length _ ["N"%char] g eq_refl)
    as (t & g' & Hrun & Halt & Hlen);
    [discriminate | apply alternates_singleton |].
  simpl List.length in Hlen. rewrite Hrun.
  assert (Ht : Z.of_nat (List.length t) = (length - 2)%Z) by lia.
  destruct Hodd as [k Hk].
  assert (Halt2 : alternates ((t ++ ["R"%char]) ++ ["N"%char])%list).
  { apply alternates_snoc; [apply alternates_snoc; [assumption|] |].
    - rewrite (@even_false_of_Z _ (k - 1)) by lia. right; reflexivity.
    - rewrite (@even_true_of_Z _ k); [reflexivity |].
      rewrite length_app; cbn [List.length]; lia. }
  exists (string_of_list_ascii ((t ++ ["R"%char]) ++ ["N"%char])%list), g'.
  split; [reflexivity |]. split; [| split].
  - unfold len. rewrite length_joined, !length_app. simpl. lia.
  - intros i c. rewrite get_joined. apply Halt2.
  - rewrite get_joined, <- Ht, Nat2Z.id.
    rewrite nth_error_app1 by (rewrite length_app; simpl; lia).
    rewrite nth_error_app2, Nat.sub_diag by lia. reflexivity.
Qed.

End Generator.

(** ** Consequences of strict alternation *)

Section Alternation.

Variable tree : string.
Hypothesis Halt : strictly_alternates tree.

Lemma alternates_symbol (i : nat) (c : ascii) :
  String.get i tree = Some c -> symbol c.
Proof.
  intros H. specialize (Halt _ H).
  destruct (Nat.even i); [left | right]; assumption.
Qed.

Lemma alternates_even (i : nat) :
  (i < String.length tree)%nat -> Nat.even i = true ->
  String.get i tree = Some "N"%char.
Proof.
  intros Hi Ei. destruct (get_lt_Some tree Hi) as [c Hc].
  pose proof (Halt _ Hc) as H. rewrite Ei in H. congruence.
Qed.

Lemma alternates_odd (i : nat) :
  (i < String.length tree)%nat -> Nat.even i = false ->
  exists c, String.get i tree = Some c /\ direction c.
Proof.
  intros Hi Ei. destruct (get_lt_Some tree Hi) as [c Hc].
  pose proof (Halt _ Hc) as H. rewrite Ei in H. eauto.
Qed.

Lemma alternates_direction_odd (i : nat) (c : ascii) :
  String.get i tree = Some c -> direction c -> Nat.even i = false.
Proof.
  intros Hc Hdir. pose proof (Halt _ Hc) as H.
  destruct (Nat.even i); [| reflexivity].
  subst c. destruct Hdir; discriminate.
Qed.

Lemma alternates_apart : directions_apart tree.
Proof.
  intros i a b Ha Hb [Hda Hdb].
  pose proof (alternates_direction_odd _ Ha Hda) as Ei.
  pose proof (alternates_direction_odd _ Hb Hdb) as Es.
  rewrite Nat.even_succ, <- Nat.negb_even, Ei in Es. discriminate.
Qed.

(** With an odd number of symbols the last index is even, so a direction
    symbol always has a successor. *)
Lemma alternates_followed_by_N :
  Nat.even (String.length tree) = false -> directions_followed_by_N tree.
Proof.
  intros Hodd i a Ha Hdir.
  pose proof (alternates_direction_odd _ Ha Hdir) as Ei.
  pose proof (get_Some_lt _ _ Ha) as Hi.
  assert (Hne : S i <> String.length tree).
  { intros E. rewrite <- E, Nat.even_succ, <- Nat.negb_even, Ei in Hodd.
    discriminate. }
  apply alternates_even; [lia |].
  rewrite Nat.even_succ, <- Nat.negb_even, Ei. reflexivity.
Qed.

End Alternation.

(** ** Claims about the tree generator *)

(** C4. For every integer [length] that is even or less than 5,
    [generate_tree(length)] raises [ValueError] and returns nothing; the
    random generator is left as it was, so no symbol has been drawn and
    nothing else has happened before the failure. *)
Theorem generate_tree_rejects (length : Z) (g : rng) :
  Z.Even length \/ (length < 5)%Z ->
  generate_tree length g =
    (Raise (ValueError "Length must be an odd number and at least 5"), g).
Proof.
  intros H. unfold generate_tree.
  replace ((length <? 5) || (length mod 2 =? 0))%Z with true; [reflexivity |].
  symmetry. apply orb_true_iff. destruct H as [[k ->] | Hlt].
  - right. apply Z.eqb_eq. Z.to_euclidean_division_equations. lia.
  - left. apply Z.ltb_lt. assumption.
Qed.

Lemma generate_tree_rejects_witness :
  (Z.Even 8 \/ (8 < 5)%Z) /\
  generate_tree 8 counting_rng =
    (Raise (ValueError "Length must be an odd number and at least 5"),
     counting_rng).
Proof.
  assert (H : Z.Even 8 \/ (8 < 5)%Z) by (left; exists 4%Z; reflexivity).
  split; [exact H | exact (generate_tree_rejects counting_rng H)].
Defined.

(** C1. For every odd [length >= 5] and every state of the random
    generator, [generate_tree(length)] returns a string of exactly [length]
    symbols over N, L, R that starts with N, ends with N, has no two
    direction symbols adjacent (every L or R is immediately followed by N)
    and has R at index [length - 2]. *)
Theorem generate_tree_valid (length : Z) (g : rng) :
  (5 <= length)%Z -> Z.Odd length ->
  exists tree g',
    generate_tree length g = (Ok tree, g') /\
    len tree = length /\
    (forall i c, String.get i tree = Some c -> symbol c) /\
    String.get 0 tree = Some "N"%char /\
    String.get (Z.to_nat (length - 1)) tree = Some "N"%char /\
    directions_apart tree /\
    directions_followed_by_N tree /\
    String.get (Z.to_nat (length - 2)) tree = Some "R"%char.
Proof.
  intros H5 Hodd.
  destruct (generate_tree_shape g H5 Hodd)
    as (tree & g' & Hrun & Hlen & Halt & HR).
  exists tree, g'. unfold len in Hlen. destruct Hodd as [k Hk].
  repeat match goal with |- _ /\ _ => split end; try assumption.
  - exact (alternates_symbol Halt).
  - apply alternates_even; [assumption | lia | reflexivity].
  - apply alternates_even; [assumption | lia |].
    apply (@even_true_of_Z _ k). lia.
  - apply alternates_apart; assumption.
  - apply alternates_followed_by_N; [assumption |].
    apply (@even_false_of_Z _ k). lia.
Qed.

Lemma generate_tree_valid_witness :
  (5 <= 7)%Z /\ Z.Odd 7 /\
  exists tree g',
    generate_tree 7 counting_rng = (Ok tree, g') /\
    len tree = 7%Z /\
    (forall i c, String.get i tree = Some c -> symbol c) /\
    String.get 0 tree = Some "N"%char /\
    String.get (Z.to_nat (7 - 1)) tree = Some "N"%char /\
    directions_apart tree /\
    directions_followed_by_N tree /\
    String.get (Z.to_nat (7 - 2)) tree = Some "R"%char.
Proof.
  assert (H5 : (5 <= 7)%Z) by lia.
  assert (Hodd : Z.Odd 7) by (exists 3%Z; reflexivity).
  split; [exact H5 |].
  split; [exact Hodd | exact (generate_tree_valid counting_rng H5 Hodd)].
Defined.

(** ** The match statement and the lookaside table *)

Section Match.

Lemma case_eq_iff (w p : window) : case_ w p = true <-> w = p.
Proof.
  destruct w as [[a b] c], p as [[x y] z]. unfold case_.
  rewrite !andb_true_iff, !Ascii.eqb_eq. split.
  - intros [[-> ->] ->]. reflexivity.
  - intros E. injection E as -> -> ->. auto.
Qed.

(** The match statement does what the table says: on a window with a row
    it appends the row's descriptor and copies the row's success asset
    under the index; on any other window it does nothing. *)
Lemma match_blocks_lookaside (w : window) (index : nat) (st : state) :
  match_blocks w index st =
    match lookaside w with
    | Some d => create_gif_copy (main_gif_basename d) index (sequence_append st d)
    | None => st
    end.
Proof.
  unfold match_blocks, lookaside, lookaside_table. cbn [find fst].
  repeat (destruct (case_ w _); [reflexivity |]). reflexivity.
Qed.

Lemma lookaside_row (w : window) (d : step) :
  lookaside w = Some d <-> In (w, d) lookaside_table.
Proof.
  split.
  - unfold lookaside. intros H.
    destruct (find _ lookaside_table) as [[w' d']|] eqn:E; [| discriminate].
    apply find_some in E. destruct E as [Hin Hc].
    apply case_eq_iff in Hc. simpl in H, Hc. congruence.
  - intros Hin. simpl in Hin.
    repeat (destruct Hin as [Hin | Hin];
            [injection Hin as <- <-; reflexivity |]).
    contradiction.
Qed.

Lemma sequence_match_blocks (w : window) (index : nat) (st : state) :
  sequence (match_blocks w index st) =
    (sequence st ++ match lookaside w with Some d => [d] | None => [] end)%list.
Proof.
  rewrite match_blocks_lookaside.
  destruct (lookaside w); simpl; [reflexivity | rewrite app_nil_r; reflexivity].
Qed.

End Match.

(** A window emits a descriptor exactly when the table has that row. *)
Lemma emits_row (w : window) (d : step) :
  emits w d <-> In (w, d) lookaside_table.
Proof.
  split.
  - intros Hd. specialize (Hd 0%nat initial).
    rewrite sequence_match_blocks in Hd. apply app_inv_head in Hd.
    destruct (lookaside w) as [d'|] eqn:E; [| discriminate].
    injection Hd as ->. apply lookaside_row. assumption.
  - intros Hin index st. apply lookaside_row in Hin.
    rewrite sequence_match_blocks, Hin. reflexivity.
Qed.

(** C2. On each of the six windows the match statement emits the descriptor
    of the lookaside table: (L,N,L) gives (R, LNL, L, LN_DEATH); (L,N,R)
    gives (R, LNR, L, LN_DEATH); (R,N,L) gives (L, RNL, R, RN_DEATH);
    (R,N,R) gives (L, RNR, R, RN_DEATH); (N,L,N) gives (R, NLN, L,
    NLN_DEATH); (N,R,N) gives (L, NRN, R, NRN_DEATH); and nothing else is
    ever emitted. In every emitted descriptor the correct choice is the
    opposite of the current symbol, which is the first letter of the success
    asset, when the window starts with L or R, and the opposite of the
    middle symbol when it starts with N. *)
Theorem match_blocks_table :
  emits ("L", "N", "L")%char (("R", "LNL"), ("L", "LN_DEATH")) /\
  emits ("L", "N", "R")%char (("R", "LNR"), ("L", "LN_DEATH")) /\
  emits ("R", "N", "L")%char (("L", "RNL"), ("R", "RN_DEATH")) /\
  emits ("R", "N", "R")%char (("L", "RNR"), ("R", "RN_DEATH")) /\
  emits ("N", "L", "N")%char (("R", "NLN"), ("L", "NLN_DEATH")) /\
  emits ("N", "R", "N")%char (("L", "NRN"), ("R", "NRN_DEATH")) /\
  (forall w d, emits w d -> In (w, d) lookaside_table) /\
  (forall cur next nextNext d,
      emits (cur, next, nextNext) d ->
      (direction cur ->
       opposite cur = Some (correct_button d) /\
       first_letter (main_gif_basename d) = Some cur) /\
      (cur = "N"%char -> opposite next = Some (correct_button d))).
Proof.
  repeat match goal with
         | |- emits _ _ /\ _ => split; [intros index st; reflexivity |]
         end.
  split; [intros w d; apply emits_row |].
  intros cur next nextNext d Hd. apply emits_row in Hd. simpl in Hd.
  repeat (destruct Hd as [Hd | Hd];
          [injection Hd as <- <- <- <-;
           split; [intros [HD | HD];
                   first [discriminate HD | split; reflexivity]
                  | intros HN; first [discriminate HN | reflexivity]] |]).
  contradiction.
Qed.

(** ** The loop *)

Section Loop.

Variable tree : string.

(** At every index but the last the loop reads the window of the
    specification, and no read is out of range. *)
Lemma blocks_window_at (index : nat) (block : ascii) :
  String.get index tree = Some block ->
  (S index < String.length tree)%nat ->
  exists w, blocks tree index block = Ok w /\ window_at tree index = Some w.
Proof.
  intros Hb Hlt. unfold blocks, next_block, next_next_block, getitem, window_at, len.
  rewrite Hb.
  destruct (get_lt_Some tree (i := index + 1)) as [nb Hnb]; [lia |].
  rewrite Hnb. cbn [bind].
  destruct (Z.eqb_spec (Z.of_nat index) (Z.of_nat (String.length tree) - 2))
    as [E | E].
  - replace (index + 2 =? String.length tree)%nat with true
      by (symmetry; apply Nat.eqb_eq; lia).
    eexists; split; reflexivity.
  - replace (index + 2 =? String.length tree)%nat with false
      by (symmetry; apply Nat.eqb_neq; lia).
    destruct (get_lt_Some tree (i := index + 2)) as [nnb Hnnb]; [lia |].
    rewrite Hnnb. eexists; split; reflexivity.
Qed.

Lemma window_at_last (index : nat) :
  (String.length tree <= S index)%nat -> window_at tree index = None.
Proof.
  intros Hge. unfold window_at.
  destruct (String.get index tree); [| reflexivity].
  destruct (String.get (index + 1) tree) eqn:E; [| reflexivity].
  apply get_Some_lt in E. lia.
Qed.

(** One round of the loop, in closed form. *)
Lemma body_descriptor (index : nat) (block : ascii) (st : state) :
  String.get index tree = Some block ->
  body tree index block st =
    Ok match descriptor_at tree index with
       | Some d =>
           create_gif_copy (main_gif_basename d) index (sequence_append st d)
       | None => st
       end.
Proof.
  intros Hb. unfold body, descriptor_at, len.
  pose proof (get_Some_lt _ _ Hb) as Hi.
  destruct (Z.eqb_spec (Z.of_nat index) (Z.of_nat (String.length tree) - 1))
    as [E | E].
  - rewrite window_at_last by lia. reflexivity.
  - destruct (blocks_window_at Hb) as (w & Hw & Hat); [lia |].
    rewrite Hw, Hat. cbn [bind]. rewrite match_blocks_lookaside. reflexivity.
Qed.

Lemma for_loop_appended :
  forall (items : list (nat * ascii)) (st : state),
    (forall i b, In (i, b) items -> String.get i tree = Some b) ->
    for_loop tree items st =
      Ok {| sequence :=
              sequence st ++ map snd (appended_on tree (map fst items));
            copyfile :=
              copyfile st ++ map request_of (appended_on tree (map fst items)) |}.
Proof.
  induction items as [| [i b] rest IH]; intros st Hitems.
  - simpl. rewrite !app_nil_r. destruct st; reflexivity.
  - cbn [for_loop]. rewrite body_descriptor by (apply Hitems; left; reflexivity).
    cbn [bind]. rewrite IH by (intros; apply Hitems; right; assumption).
    unfold appended_on. cbn [map fst flat_map].
    destruct (descriptor_at tree i) as [d|]; simpl.
    + rewrite <- !app_assoc. reflexivity.
    + reflexivity.
Qed.

Lemma enumerate_from_get (l : list ascii) :
  forall start i b,
    In (i, b) (enumerate_from start l) ->
    (start <= i)%nat /\ nth_error l (i - start) = Some b.
Proof.
  induction l as [| a l IH]; intros start i b Hin; simpl in Hin.
  - contradiction.
  - destruct Hin as [E | Hin].
    + injection E as <- <-. rewrite Nat.sub_diag. split; [lia | reflexivity].
    + apply IH in Hin. destruct Hin as [Hle Hnth]. split; [lia |].
      replace (i - start)%nat with (S (i - S start)) by lia. exact Hnth.
Qed.

Lemma enumerate_from_fst (l : list ascii) :
  forall start, map fst (enumerate_from start l) = seq start (List.length l).
Proof.
  induction l as [| a l IH]; intros start; simpl; [reflexivity |].
  rewrite IH. reflexivity.
Qed.

(** The loop never raises; it leaves in [sequence] the descriptors of the
    matched positions, in order, and has asked for one copy per matched
    position. *)
Lemma build_appended :
  build tree =
    Ok {| sequence := map snd (appended tree);
          copyfile := map request_of (appended tree) |}.
Proof.
  unfold build. rewrite for_loop_appended.
  - unfold enumerate, appended.
    rewrite enumerate_from_fst, <- length_list_ascii. reflexivity.
  - intros i b Hin. apply enumerate_from_get in Hin.
    rewrite get_nth_error, <- (Nat.sub_0_r i). apply Hin.
Qed.

End Loop.

(** ** Matched positions *)

Section Appended.

Variable tree : string.

Lemma in_appended_on (idxs : list nat) (i : nat) (d : step) :
  In (i, d) (appended_on tree idxs) <->
  In i idxs /\ descriptor_at tree i = Some d.
Proof.
  unfold appended_on. rewrite in_flat_map. split.
  - intros (j & Hj & Hin).
    destruct (descriptor_at tree j) as [d'|] eqn:E; simpl in Hin.
    + destruct Hin as [Hin | []]. injection Hin as -> ->. auto.
    + contradiction.
  - intros [Hi Hd]. exists i. rewrite Hd. split; [assumption | left; reflexivity].
Qed.

Lemma appended_on_app (xs ys : list nat) :
  appended_on tree (xs ++ ys) =
    (appended_on tree xs ++ appended_on tree ys)%list.
Proof. apply flat_map_app. Qed.

Lemma appended_on_fst_incl (idxs : list nat) (i : nat) :
  In i (map fst (appended_on tree idxs)) -> In i idxs.
Proof.
  rewrite in_map_iff. intros ([j d] & E & Hin). simpl in E. subst j.
  apply in_appended_on in Hin. apply Hin.
Qed.

(** Every position contributes at most once. *)
Lemma appended_on_NoDup (idxs : list nat) :
  NoDup idxs -> NoDup (map fst (appended_on tree idxs)).
Proof.
  induction idxs as [| i idxs IH]; intros Hnd; [constructor |].
  inversion Hnd as [| ? ? Hni Hnd']; subst.
  change (i :: idxs) with ([i] ++ idxs)%list.
  rewrite appended_on_app, map_app.
  unfold appended_on at 1. cbn [flat_map]. rewrite app_nil_r.
  destruct (descriptor_at tree i); simpl.
  - constructor; [| apply IH; assumption].
    intros Hin. apply Hni. apply appended_on_fst_incl. assumption.
  - apply IH; assumption.
Qed.

(** Where every position is matched, none is missing. *)
Lemma appended_on_all (idxs : list nat) :
  (forall i, In i idxs -> descriptor_at tree i <> None) ->
  map fst (appended_on tree idxs) = idxs.
Proof.
  induction idxs as [| i idxs IH]; intros Hall; [reflexivity |].
  change (i :: idxs) with ([i] ++ idxs)%list.
  rewrite appended_on_app, map_app, IH
    by (intros; apply Hall; right; assumption).
  unfold appended_on. cbn [flat_map]. rewrite app_nil_r.
  destruct (descriptor_at tree i) eqn:E; [reflexivity |].
  exfalso. apply (Hall i); [left; reflexivity | assumption].
Qed.

Lemma descriptor_at_last (i : nat) :
  (String.length tree <= S i)%nat -> descriptor_at tree i = None.
Proof.
  intros H. unfold descriptor_at. rewrite window_at_last by assumption.
  reflexivity.
Qed.

(** The last index contributes nothing. *)
Lemma appended_but_last :
  appended tree = appended_on tree (seq 0 (String.length tree - 1)).
Proof.
  unfold appended. destruct (String.length tree) as [| n] eqn:E.
  - reflexivity.
  - rewrite seq_S, appended_on_app. simpl Nat.sub. rewrite Nat.sub_0_r.
    unfold appended_on at 2. cbn [flat_map Nat.add].
    rewrite descriptor_at_last by lia. rewrite !app_nil_r. reflexivity.
Qed.

Lemma appended_NoDup : NoDup (map fst (appended tree)).
Proof. apply appended_on_NoDup, seq_NoDup. Qed.

End Appended.

(** ** Names of the copies *)

Section Requests.

Lemma append_inv_head (a x y : string) : a ++ x = a ++ y -> x = y.
Proof.
  induction a as [| c a IH]; simpl; intros H; [assumption |].
  injection H as H. auto.
Qed.

Lemma list_ascii_of_append (x y : string) :
  list_ascii_of_string (x ++ y) =
    (list_ascii_of_string x ++ list_ascii_of_string y)%list.
Proof.
  induction x as [| c x IH]; simpl; [reflexivity | rewrite IH; reflexivity].
Qed.

Lemma append_inv_tail (a x y : string) : x ++ a = y ++ a -> x = y.
Proof.
  intros H. apply (f_equal list_ascii_of_string) in H.
  rewrite !list_ascii_of_append in H. apply app_inv_tail in H.
  apply (f_equal string_of_list_ascii) in H.
  rewrite !string_of_list_ascii_of_string in H. assumption.
Qed.

Lemma str_of_nat_inj (n m : nat) : str_of_nat n = str_of_nat m -> n = m.
Proof.
  unfold str_of_nat. intros H.
  apply (f_equal NilEmpty.uint_of_string) in H.
  rewrite !NilEmpty.usu in H. injection H as H.
  apply Unsigned.to_uint_inj. assumption.
Qed.

(** A request names its asset and its index. *)
Lemma copy_request_inj (name name' : string) (i i' : nat) :
  copy_request name i = copy_request name' i' -> name = name' /\ i = i'.
Proof.
  unfold copy_request. intros H.
  pose proof (f_equal fst H) as Hsrc. pose proof (f_equal snd H) as Hdst.
  cbn [fst snd] in Hsrc, Hdst.
  apply (append_inv_head "static/game_frames/") in Hsrc.
  apply append_inv_tail in Hsrc. subst name'. split; [reflexivity |].
  apply (append_inv_head "static/game_frame_copies/") in Hdst.
  apply append_inv_head in Hdst.
  apply (append_inv_head "_") in Hdst.
  apply append_inv_tail in Hdst. apply str_of_nat_inj. assumption.
Qed.

Lemma NoDup_map_through (A B : Type) (f : A -> B) (key : A -> nat) (l : list A) :
  (forall x y, f x = f y -> key x = key y) ->
  NoDup (map key l) -> NoDup (map f l).
Proof.
  intros Hf. induction l as [| a l IH]; simpl; intros Hnd; [constructor |].
  inversion Hnd as [| ? ? Hni Hnd']; subst. constructor; [| auto].
  intros Hin. apply Hni. apply in_map_iff in Hin.
  destruct Hin as (x & E & Hx). apply Hf in E. rewrite <- E.
  apply in_map. assumption.
Qed.

(** No request is made twice. *)
Lemma requests_NoDup (tree : string) : NoDup (map request_of (appended tree)).
Proof.
  apply NoDup_map_through with (key := fst); [| apply appended_NoDup].
  intros x y E. apply copy_request_inj in E. apply E.
Qed.

End Requests.

(** ** Claims about the sequence builder, on every tree *)

Lemma in_appended (tree : string) (i : nat) (d : step) :
  In (i, d) (appended tree) <-> descriptor_at tree i = Some d.
Proof.
  unfold appended. rewrite in_appended_on, in_seq. split; [tauto |].
  intros Hd. split; [| assumption]. split; [lia |]. simpl.
  destruct (Nat.lt_ge_cases i (String.length tree)) as [Hlt | Hge]; [assumption |].
  rewrite descriptor_at_last in Hd by lia. discriminate.
Qed.

Lemma descriptor_in_table (tree : string) (i : nat) (d : step) :
  descriptor_at tree i = Some d -> exists w, In (w, d) lookaside_table.
Proof.
  unfold descriptor_at. destruct (window_at tree i) as [w|]; [| discriminate].
  intros H. exists w. apply lookaside_row. assumption.
Qed.

(** C5. At the second-to-last index the third component of the window is
    the constant L, whatever the tree holds; at every other index that the
    loop processes it is [tree[index + 2]]. The window that the loop body
    matches on is made of the block, [tree[index + 1]] and that component. *)
Theorem next_next_block_sentinel (tree : string) (index : nat) :
  (Z.of_nat index = (len tree - 2)%Z ->
   next_next_block tree index = Ok "L"%char) /\
  ((Z.of_nat index < len tree - 2)%Z ->
   exists c,
     String.get (index + 2) tree = Some c /\
     next_next_block tree index = Ok c) /\
  (forall block st,
      String.get index tree = Some block ->
      (Z.of_nat index < len tree - 1)%Z ->
      exists nb nnb,
        String.get (index + 1) tree = Some nb /\
        next_next_block tree index = Ok nnb /\
        blocks tree index block = Ok (block, nb, nnb) /\
        body tree index block st = Ok (match_blocks (block, nb, nnb) index st)).
Proof.
  assert (Hsentinel : Z.of_nat index = (len tree - 2)%Z ->
                      next_next_block tree index = Ok "L"%char).
  { intros E. unfold next_next_block. rewrite E, Z.eqb_refl. reflexivity. }
  assert (Hread : (Z.of_nat index < len tree - 2)%Z ->
                  exists c, String.get (index + 2) tree = Some c /\
                            next_next_block tree index = Ok c).
  { intros Hlt. unfold next_next_block, getitem.
    replace (Z.of_nat index =? len tree - 2)%Z with false
      by (symmetry; apply Z.eqb_neq; lia).
    unfold len in Hlt.
    destruct (get_lt_Some tree (i := index + 2)) as [c Hc]; [lia |].
    exists c. rewrite Hc. split; reflexivity. }
  split; [exact Hsentinel |]. split; [exact Hread |].
  intros block st Hb Hlt. unfold len in Hlt.
  destruct (get_lt_Some tree (i := index + 1)) as [nb Hnb]; [lia |].
  assert (Hnnb : exists nnb, next_next_block tree index = Ok nnb).
  { destruct (Z.eq_dec (Z.of_nat index) (len tree - 2)) as [E | E].
    - exists "L"%char. auto.
    - destruct Hread as (c & _ & Hc); [unfold len in *; lia | eauto]. }
  destruct Hnnb as [nnb Hnnb]. exists nb, nnb.
  assert (Hw : blocks tree index block = Ok (block, nb, nnb)).
  { unfold blocks, next_block, getitem. rewrite Hnb, Hnnb. reflexivity. }
  repeat split; try assumption.
  unfold body. replace (Z.of_nat index =? len tree - 1)%Z with false
    by (symmetry; apply Z.eqb_neq; unfold len; lia).
  rewrite Hw. reflexivity.
Qed.

(** C8. Where the window of a loop item is none of the six rows of the
    table, the round leaves the state as it was, so no descriptor is
    appended and no copy is requested, and the loop goes on with the
    remaining items. *)
Theorem unmatched_window_skipped
  (tree : string) (index : nat) (block : ascii) (w : window)
  (st : state) (rest : list (nat * ascii)) :
  blocks tree index block = Ok w ->
  (forall d, ~ In (w, d) lookaside_table) ->
  body tree index block st = Ok st /\
  for_loop tree ((index, block) :: rest) st = for_loop tree rest st.
Proof.
  intros Hw Hnone.
  assert (Hbody : body tree index block st = Ok st).
  { unfold body. destruct (Z.of_nat index =? len tree - 1)%Z; [reflexivity |].
    rewrite Hw. cbn [bind]. rewrite match_blocks_lookaside.
    destruct (lookaside w) as [d|] eqn:E; [| reflexivity].
    apply lookaside_row in E. destruct (Hnone d E). }
  split; [exact Hbody |]. cbn [for_loop]. rewrite Hbody. reflexivity.
Qed.

Lemma unmatched_window_skipped_witness :
  blocks "NNNRN" 0 "N"%char = Ok ("N", "N", "N")%char /\
  (forall d, ~ In (("N", "N", "N")%char, d) lookaside_table) /\
  body "NNNRN" 0 "N"%char initial = Ok initial /\
  for_loop "NNNRN" [(0%nat, "N"%char); (1%nat, "N"%char)] initial =
    for_loop "NNNRN" [(1%nat, "N"%char)] initial.
Proof.
  assert (Hw : blocks "NNNRN" 0 "N"%char = Ok ("N", "N", "N")%char)
    by reflexivity.
  assert (Hnone : forall d, ~ In (("N", "N", "N")%char, d) lookaside_table).
  { intros d Hin. simpl in Hin.
    repeat (destruct Hin as [Hin | Hin]; [discriminate Hin |]).
    exact Hin. }
  split; [exact Hw |]. split; [exact Hnone |].
  exact (unmatched_window_skipped "NNNRN" 0 "N"%char initial
           [(1%nat, "N"%char)] Hw Hnone).
Defined.

(** C6. A call of [create_gif_copy] adds the one request [copy_request].
    On every tree the loop ends normally; its descriptors and its copy
    requests are in step: the descriptor appended at index [i] with success
    asset [S] goes with the request to copy [S] to [S_i], that request is
    made exactly once, and no request carries an index at which nothing
    was appended. *)
Theorem descriptors_copies_round_trip (tree : string) :
  (forall name i st0,
      copyfile (create_gif_copy name i st0) =
        (copyfile st0 ++ [copy_request name i])%list) /\
  exists st,
    build tree = Ok st /\
    sequence st = map snd (appended tree) /\
    copyfile st =
      map (fun p => copy_request (main_gif_basename (snd p)) (fst p))
          (appended tree) /\
    (forall i d,
        In (i, d) (appended tree) <-> descriptor_at tree i = Some d) /\
    (forall i d,
        descriptor_at tree i = Some d ->
        count_occ request_eq_dec (copyfile st)
                  (copy_request (main_gif_basename d) i) = 1%nat) /\
    (forall i name,
        descriptor_at tree i = None ->
        ~ In (copy_request name i) (copyfile st)).
Proof.
  split; [reflexivity |].
  eexists. split; [apply build_appended |]. cbn [sequence copyfile].
  split; [reflexivity |]. split; [reflexivity |].
  split; [apply in_appended |]. split.
  - intros i d Hd.
    apply (proj1 (NoDup_count_occ' request_eq_dec _) (requests_NoDup tree)).
    apply in_appended in Hd.
    apply (in_map request_of) in Hd. exact Hd.
  - intros i name Hnone Hin. apply in_map_iff in Hin.
    destruct Hin as ([j d] & E & Hin). apply copy_request_inj in E.
    destruct E as [_ E]. simpl in E. subst j.
    apply in_appended in Hin. congruence.
Qed.

(** C7. In every descriptor that the loop leaves in [sequence], on any
    tree, the wrong choice is the complement of the correct choice: one of
    them is L and the other is R. *)
Theorem wrong_choice_complement (tree : string) :
  exists st,
    build tree = Ok st /\
    Forall (fun d => complementary (correct_button d) (wrong_button d))
           (sequence st).
Proof.
  eexists. split; [apply build_appended |]. cbn [sequence].
  apply Forall_forall. intros d Hin. apply in_map_iff in Hin.
  destruct Hin as ([i d'] & E & Hin). simpl in E. subst d'.
  apply in_appended, descriptor_in_table in Hin. destruct Hin as [w Hin].
  simpl in Hin.
  repeat (destruct Hin as [Hin | Hin];
          [injection Hin as <- <-;
           first [left; split; reflexivity | right; split; reflexivity] |]).
  contradiction.
Qed.

(** ** Strictly alternating trees of odd length *)

Section AlternatingTree.

Variable tree : string.
Hypothesis Halt : strictly_alternates tree.
Hypothesis Hodd : Nat.even (String.length tree) = false.

Lemma alternates_N_apart : N_apart tree.
Proof.
  intros i Hi Hs.
  assert (Ei : Nat.even i = true).
  { pose proof (Halt _ Hi) as H. destruct (Nat.even i); [reflexivity |].
    destruct H; discriminate. }
  pose proof (Halt _ Hs) as H.
  rewrite Nat.even_succ, <- Nat.negb_even, Ei in H. simpl in H.
  destruct H; discriminate.
Qed.

(** Every index but the last has a window, and the window has a row. *)
Lemma alternating_descriptor (i : nat) :
  (S i < String.length tree)%nat ->
  exists w d,
    window_at tree i = Some w /\ lookaside w = Some d /\
    descriptor_at tree i = Some d.
Proof.
  intros Hi.
  assert (Hnext : Nat.even (i + 1) = negb (Nat.even i)).
  { rewrite Nat.add_1_r, Nat.even_succ, <- Nat.negb_even. reflexivity. }
  assert (Hnn : Nat.even (i + 2) = Nat.even i).
  { replace (i + 2)%nat with (S (S i)) by lia. apply Nat.even_succ_succ. }
  unfold descriptor_at, window_at.
  destruct (Nat.even i) eqn:Ei.
  - (* N, direction, N *)
    assert (Hlen : (i + 2 < String.length tree)%nat).
    { destruct (Nat.eq_dec (i + 2) (String.length tree)) as [E | E]; [| lia].
      rewrite <- E, Hnn in Hodd. discriminate. }
    rewrite (alternates_even Halt) by (assumption || lia).
    destruct (alternates_odd Halt (i := i + 1)) as (c & Hc & Hdir);
      [lia | rewrite Hnext; reflexivity |].
    rewrite Hc.
    replace (i + 2 =? String.length tree)%nat with false
      by (symmetry; apply Nat.eqb_neq; lia).
    rewrite (alternates_even Halt) by (assumption || congruence).
    destruct Hdir as [-> | ->]; eexists; eexists;
      (split; [reflexivity | split; reflexivity]).
  - (* direction, N, then the sentinel or a direction *)
    destruct (alternates_odd Halt (i := i)) as (c & Hc & Hdir);
      [lia | assumption |].
    rewrite Hc.
    rewrite (alternates_even Halt (i := i + 1))
      by (lia || (rewrite Hnext; reflexivity)).
    destruct (Nat.eqb_spec (i + 2) (String.length tree)) as [E | E].
    + destruct Hdir as [-> | ->]; eexists; eexists;
        (split; [reflexivity | split; reflexivity]).
    + destruct (alternates_odd Halt (i := i + 2)) as (c' & Hc' & Hdir');
        [lia | congruence |].
      rewrite Hc'.
      destruct Hdir as [-> | ->], Hdir' as [-> | ->]; eexists; eexists;
        (split; [reflexivity | split; reflexivity]).
Qed.

Lemma alternating_positions :
  map fst (appended tree) = seq 0 (String.length tree - 1).
Proof.
  rewrite appended_but_last. apply appended_on_all.
  intros i Hi. apply in_seq in Hi.
  destruct (@alternating_descriptor i) as (w & d & _ & _ & Hd); [lia |].
  congruence.
Qed.

(** The k-th descriptor is the one of index k. *)
Lemma alternating_nth (i : nat) :
  (S i < String.length tree)%nat ->
  exists d,
    descriptor_at tree i = Some d /\
    nth_error (appended tree) i = Some (i, d).
Proof.
  intros Hi.
  assert (H : nth_error (map fst (appended tree)) i = Some i).
  { rewrite alternating_positions.
    rewrite nth_error_nth' with (d := 0%nat) by (rewrite length_seq; lia).
    rewrite seq_nth by lia. reflexivity. }
  rewrite nth_error_map in H.
  destruct (nth_error (appended tree) i) as [[j d]|] eqn:E; [| discriminate].
  simpl in H. injection H as ->. exists d. split; [| reflexivity].
  apply nth_error_In in E. apply in_appended in E. assumption.
Qed.

Lemma alternating_length :
  List.length (appended tree) = (String.length tree - 1)%nat.
Proof.
  rewrite <- (length_map fst), alternating_positions, length_seq. reflexivity.
Qed.

End AlternatingTree.

(** The invariants of the specification together with the absence of two
    adjacent N force the strict alternation. *)
Lemma invariants_alternate (tree : string) :
  tree_invariants tree -> N_apart tree -> strictly_alternates tree.
Proof.
  intros Hinv Hapart i. induction i as [| j IH]; intros c Hc.
  - rewrite (inv_first Hinv) in Hc. injection Hc as <-. reflexivity.
  - destruct (get_lt_Some tree (i := j)) as [a Ha].
    { apply get_Some_lt in Hc. lia. }
    specialize (IH _ Ha). rewrite Nat.even_succ, <- Nat.negb_even.
    destruct (Nat.even j); simpl.
    + subst a. destruct (inv_symbols Hinv _ Hc) as [-> | Hdir]; [| assumption].
      destruct (Hapart _ Ha Hc).
    + rewrite (inv_followed Hinv _ Ha IH) in Hc. injection Hc as <-. reflexivity.
Qed.

Lemma odd_length (tree : string) :
  Z.Odd (len tree) -> Nat.even (String.length tree) = false.
Proof.
  intros [k Hk]. apply (@even_false_of_Z _ k). exact Hk.
Qed.

(** ** Claims about the sequence of a generated tree *)

(** C9. For every odd [length >= 5] and every state of the random
    generator, the generated tree strictly alternates: N at every even
    index, L or R at every odd index. So it has no two adjacent N, and at
    every index that the loop processes, the second-to-last with its
    sentinel included, the window has a row in the table and the round
    appends that row's descriptor: no position is skipped. *)
Theorem generated_tree_alternates (length : Z) (g : rng) :
  (5 <= length)%Z -> Z.Odd length ->
  exists tree g',
    generate_tree length g = (Ok tree, g') /\
    len tree = length /\
    strictly_alternates tree /\
    N_apart tree /\
    (forall index block,
        String.get index tree = Some block ->
        (Z.of_nat index < len tree - 1)%Z ->
        exists w d,
          blocks tree index block = Ok w /\
          In (w, d) lookaside_table /\
          forall st,
            body tree index block st =
              Ok (create_gif_copy (main_gif_basename d) index
                                  (sequence_append st d))) /\
    map fst (appended tree) = seq 0 (Z.to_nat (length - 1)).
Proof.
  intros H5 Hodd.
  destruct (generate_tree_shape g H5 Hodd)
    as (tree & g' & Hrun & Hlen & Halt & _).
  assert (Hpar : Nat.even (String.length tree) = false)
    by (apply odd_length; rewrite Hlen; assumption).
  exists tree, g'. split; [assumption |]. split; [assumption |].
  split; [assumption |]. split; [apply alternates_N_apart; assumption |].
  split.
  - intros index block Hb Hlt. unfold len in Hlt.
    destruct (alternating_descriptor Halt Hpar (i := index))
      as (w & d & Hat & Hrow & Hd); [lia |].
    destruct (blocks_window_at _ Hb) as (w' & Hw & Hat'); [lia |].
    assert (w' = w) by congruence. subst w'.
    exists w, d. split; [assumption |].
    split; [apply lookaside_row; assumption |].
    intros st. rewrite body_descriptor by assumption. rewrite Hd. reflexivity.
  - rewrite alternating_positions by assumption.
    f_equal. unfold len in Hlen. lia.
Qed.

Lemma generated_tree_alternates_witness :
  (5 <= 5)%Z /\ Z.Odd 5 /\
  exists tree g',
    generate_tree 5 counting_rng = (Ok tree, g') /\
    len tree = 5%Z /\
    strictly_alternates tree /\
    N_apart tree /\
    (forall index block,
        String.get index tree = Some block ->
        (Z.of_nat index < len tree - 1)%Z ->
        exists w d,
          blocks tree index block = Ok w /\
          In (w, d) lookaside_table /\
          forall st,
            body tree index block st =
              Ok (create_gif_copy (main_gif_basename d) index
                                  (sequence_append st d))) /\
    map fst (appended tree) = seq 0 (Z.to_nat (5 - 1)).
Proof.
  assert (H5 : (5 <= 5)%Z) by lia.
  assert (Hodd : Z.Odd 5) by (exists 2%Z; reflexivity).
  split; [exact H5 |].
  split; [exact Hodd | exact (generated_tree_alternates counting_rng H5 Hodd)].
Defined.

(** C10. For every odd [length >= 5] and every state of the random
    generator, the last descriptor of the sequence, the one of tree index
    [length - 2], is always correct choice L, success asset RNL, wrong
    choice R, failure asset RN_DEATH: the tree has R at that index and the
    sentinel makes its window (R, N, L). *)
Theorem final_descriptor_fixed (length : Z) (g : rng) :
  (5 <= length)%Z -> Z.Odd length ->
  exists tree g' st,
    generate_tree length g = (Ok tree, g') /\
    build tree = Ok st /\
    blocks tree (Z.to_nat (length - 2)) "R"%char = Ok ("R", "N", "L")%char /\
    List.length (sequence st) = Z.to_nat (length - 1) /\
    nth_error (sequence st) (Z.to_nat (length - 2)) =
      Some (("L", "RNL"), ("R", "RN_DEATH")) /\
    nth_error (copyfile st) (Z.to_nat (length - 2)) =
      Some (copy_request "RNL" (Z.to_nat (length - 2))).
Proof.
  intros H5 Hodd.
  destruct (generate_tree_shape g H5 Hodd)
    as (tree & g' & Hrun & Hlen & Halt & HR).
  assert (Hpar : Nat.even (String.length tree) = false)
    by (apply odd_length; rewrite Hlen; assumption).
  unfold len in Hlen. set (i := Z.to_nat (length - 2)) in *.
  assert (Hi : (i + 2 = String.length tree)%nat) by lia.
  destruct (blocks_window_at _ HR) as (w & Hw & Hat); [lia |].
  assert (HN : String.get (i + 1) tree = Some "N"%char).
  { apply alternates_even; [assumption | lia |].
    replace (i + 1)%nat with (String.length tree - 1)%nat by lia.
    destruct Hodd as [k Hk]. apply (@even_true_of_Z _ k). lia. }
  assert (Ew : w = ("R", "N", "L")%char).
  { unfold window_at in Hat. rewrite HR, HN in Hat.
    rewrite (proj2 (Nat.eqb_eq _ _) Hi) in Hat. congruence. }
  subst w.
  destruct (alternating_nth Halt Hpar (i := i)) as (d & Hd & Hnth); [lia |].
  assert (Ed : d = (("L", "RNL"), ("R", "RN_DEATH"))).
  { unfold descriptor_at in Hd. rewrite Hat in Hd.
    change (lookaside ("R", "N", "L")%char)
      with (Some (("L", "RNL"), ("R", "RN_DEATH"))) in Hd. congruence. }
  subst d.
  exists tree, g'. eexists. split; [exact Hrun |].
  split; [apply build_appended |]. cbn [sequence copyfile].
  split; [exact Hw |]. split; [| split].
  - rewrite length_map, alternating_length by assumption. lia.
  - rewrite nth_error_map, Hnth. reflexivity.
  - rewrite nth_error_map, Hnth. reflexivity.
Qed.

Lemma final_descriptor_fixed_witness :
  (5 <= 9)%Z /\ Z.Odd 9 /\
  exists tree g' st,
    generate_tree 9 counting_rng = (Ok tree, g') /\
    build tree = Ok st /\
    blocks tree (Z.to_nat (9 - 2)) "R"%char = Ok ("R", "N", "L")%char /\
    List.length (sequence st) = Z.to_nat (9 - 1) /\
    nth_error (sequence st) (Z.to_nat (9 - 2)) =
      Some (("L", "RNL"), ("R", "RN_DEATH")) /\
    nth_error (copyfile st) (Z.to_nat (9 - 2)) =
      Some (copy_request "RNL" (Z.to_nat (9 - 2))).
Proof.
  assert (H5 : (5 <= 9)%Z) by lia.
  assert (Hodd : Z.Odd 9) by (exists 4%Z; reflexivity).
  split; [exact H5 |].
  split; [exact Hodd | exact (final_descriptor_fixed counting_rng H5 Hodd)].
Defined.

Lemma invariants_NNNRN : tree_invariants "NNNRN".
Proof.
  constructor.
  - intros i c H.
    do 5 (destruct i as [| i];
          [injection H as <-;
           first [left; reflexivity | right; right; reflexivity] |]).
    discriminate H.
  - split; [unfold len; simpl; lia | exists 2%Z; reflexivity].
  - reflexivity.
  - reflexivity.
  - intros i a H Hdir.
    do 5 (destruct i as [| i];
          [injection H as <-;
           first [reflexivity | destruct Hdir; discriminate] |]).
    discriminate H.
  - reflexivity.
Qed.

Lemma invariants_NRNRN : tree_invariants "NRNRN" /\ N_apart "NRNRN".
Proof.
  split; [constructor |].
  - intros i c H.
    do 5 (destruct i as [| i];
          [injection H as <-;
           first [left; reflexivity | right; right; reflexivity] |]).
    discriminate H.
  - split; [unfold len; simpl; lia | exists 2%Z; reflexivity].
  - reflexivity.
  - reflexivity.
  - intros i a H Hdir.
    do 5 (destruct i as [| i];
          [injection H as <-;
           first [reflexivity | destruct Hdir; discriminate] |]).
    discriminate H.
  - reflexivity.
  - intros i H.
    do 5 (destruct i as [| i]; [simpl; discriminate |]).
    discriminate H.
Qed.

(** C3, as stated, fails: the tree NNNRN has every invariant that the
    specification lists, and its sequence has 2 descriptors, not 4 (the
    windows at indices 0 and 1 have no row). *)
Lemma sequence_length_counterexample :
  ~ (forall tree,
        tree_invariants tree ->
        exists st,
          build tree = Ok st /\
          Z.of_nat (List.length (sequence st)) = (len tree - 1)%Z).
Proof.
  intros H. destruct (H "NNNRN" invariants_NNNRN) as (st & Hb & Hl).
  vm_compute in Hb. injection Hb as <-. vm_compute in Hl. discriminate Hl.
Qed.

(** C3, amended. The script, whose tree is [generate_tree(101)], builds a
    sequence of exactly 100 descriptors, the i-th being the one of tree
    index i, for i from 0 to 99, with its copy; and for every tree that has
    the invariants of the specification and no two adjacent N, the length
    of the sequence is the length of the tree minus 1. *)
Theorem sequence_length (g : rng) :
  (exists tree g' st,
      generate_tree 101 g = (Ok tree, g') /\
      script g = (Ok st, g') /\
      List.length (sequence st) = 100%nat /\
      forall i,
        (i < 100)%nat ->
        exists d,
          descriptor_at tree i = Some d /\
          nth_error (sequence st) i = Some d /\
          nth_error (copyfile st) i =
            Some (copy_request (main_gif_basename d) i)) /\
  (forall tree,
      tree_invariants tree -> N_apart tree ->
      exists st,
        build tree = Ok st /\
        Z.of_nat (List.length (sequence st)) = (len tree - 1)%Z).
Proof.
  split.
  - assert (H5 : (5 <= 101)%Z) by lia.
    assert (Hodd : Z.Odd 101) by (exists 50%Z; reflexivity).
    destruct (generate_tree_shape g H5 Hodd)
      as (tree & g' & Hrun & Hlen & Halt & _).
    assert (Hpar : Nat.even (String.length tree) = false)
      by (apply odd_length; rewrite Hlen; assumption).
    unfold len in Hlen.
    exists tree, g'. eexists. split; [exact Hrun |]. split.
    { unfold script. rewrite Hrun, build_appended. reflexivity. }
    cbn [sequence copyfile]. split.
    + rewrite length_map, alternating_length by assumption. lia.
    + intros i Hi.
      destruct (alternating_nth Halt Hpar (i := i)) as (d & Hd & Hnth); [lia |].
      exists d. rewrite !nth_error_map, Hnth. repeat split. assumption.
  - intros tree Hinv Hapart.
    pose proof (invariants_alternate Hinv Hapart) as Halt.
    pose proof (odd_length _ (proj2 (inv_length Hinv))) as Hpar.
    eexists. split; [apply build_appended |]. cbn [sequence].
    rewrite length_map, alternating_length by assumption.
    pose proof (proj1 (inv_length Hinv)) as H5. unfold len in *. lia.
Qed.

Lemma sequence_length_witness :
  tree_invariants "NRNRN" /\ N_apart "NRNRN" /\
  exists st,
    build "NRNRN" = Ok st /\
    Z.of_nat (List.length (sequence st)) = (len "NRNRN" - 1)%Z.
Proof.
  split; [exact (proj1 invariants_NRNRN) |].
  split; [exact (proj2 invariants_NRNRN) |].
  exact (proj2 (sequence_length counting_rng) "NRNRN"
               (proj1 invariants_NRNRN) (proj2 invariants_NRNRN)).
Defined.

(** * Further properties of the script *)

(** ** What the generator draws *)

Section Draws.

Variable length : Z.
Variable g0 : rng.

Lemma choice_pick (g : rng) :
  choice g "R"%char ["L"%char] =
    (pick (draws g (pos g)), {| draws := draws g; pos := S (pos g) |}).
Proof. reflexivity. Qed.

Lemma even_double (m : nat) : Nat.even (2 * m) = true.
Proof. apply Nat.even_spec. exists m. reflexivity. Qed.

Lemma even_double_succ (m : nat) : Nat.even (2 * m + 1) = false.
Proof.
  destruct (Nat.even (2 * m + 1)) eqn:E; [| reflexivity].
  apply Nat.even_spec in E. destruct E as [k Hk]. lia.
Qed.

(** The loop draws once per odd index it fills, in order, from the position
    where the generator stood. [m] counts the draws made so far. *)
Lemma while_loop_draws :
  forall (n : nat) (tree : list ascii) (g : rng) (m : nat),
    n = Z.to_nat (length - 2 - Z.of_nat (List.length tree)) ->
    tree <> [] -> alternates tree ->
    draws g = draws g0 -> pos g = (pos g0 + m)%nat ->
    (List.length tree = 2 * m + 1 \/ List.length tree = 2 * m)%nat ->
    (forall k, (2 * k + 1 < List.length tree)%nat ->
               nth_error tree (2 * k + 1) = Some (pick (draws g0 (pos g0 + k)))) ->
    exists tree' g' m',
      while_loop length tree g = (Ok tree', g') /\
      draws g' = draws g0 /\ pos g' = (pos g0 + m')%nat /\
      (List.length tree' = 2 * m' + 1 \/ List.length tree' = 2 * m')%nat /\
      (forall k, (2 * k + 1 < List.length tree')%nat ->
                 nth_error tree' (2 * k + 1) =
                   Some (pick (draws g0 (pos g0 + k)))).
Proof.
  induction n as [|n IH]; intros tree g m Hn Hne Halt Hdraws Hpos Hlen Hsym;
    rewrite while_loop_equation_1;
    destruct (Z_lt_dec _ _) as [Hlt | Hge]; try lia.
  - exists tree, g, m. auto.
  - destruct (last_item_nonempty Hne) as (b & Hb & Hnth). rewrite Hb.
    pose proof (alternates_last Halt Hne Hnth) as Hpar.
    destruct (Ascii.eqb b "N") eqn:Eb; simpl in Hpar.
    + assert (Hodd : List.length tree = (2 * m + 1)%nat).
      { destruct Hlen as [E | E]; [exact E |].
        rewrite E, even_double in Hpar. discriminate. }
      rewrite choice_pick.
      apply (IH _ _ (S m)).
      * rewrite length_app; simpl; lia.
      * intros E; apply app_eq_nil in E; destruct E; discriminate.
      * apply alternates_snoc; [assumption |]. rewrite Hpar.
        pose proof (choice_direction g) as Hdir. rewrite choice_pick in Hdir.
        exact Hdir.
      * exact Hdraws.
      * simpl. lia.
      * right. rewrite length_app. simpl. lia.
      * intros k Hk. rewrite length_app in Hk. simpl in Hk.
        destruct (Nat.eq_dec k m) as [-> | Hkm].
        -- rewrite nth_error_app2 by lia.
           replace (2 * m + 1 - List.length tree)%nat with 0%nat by lia.
           simpl. rewrite Hdraws, Hpos. reflexivity.
        -- rewrite nth_error_app1 by lia. apply Hsym. lia.
    + assert (Heven : List.length tree = (2 * m)%nat).
      { destruct Hlen as [E | E]; [| exact E].
        rewrite E, even_double_succ in Hpar. discriminate. }
      apply (IH _ _ m).
      * rewrite length_app; simpl; lia.
      * intros E; apply app_eq_nil in E; destruct E; discriminate.
      * apply alternates_snoc; [assumption | rewrite Hpar; reflexivity].
      * exact Hdraws.
      * exact Hpos.
      * left. rewrite length_app. simpl. lia.
      * intros k Hk. rewrite length_app in Hk. simpl in Hk.
        rewrite nth_error_app1 by lia. apply Hsym. lia.
Qed.

End Draws.

(** What [generate_tree] takes from the random generator and what it does
    with it. *)
Lemma generate_tree_draws (length : Z) (g : rng) :
  (5 <= length)%Z -> Z.Odd length ->
  exists tree g',
    generate_tree length g = (Ok tree, g') /\
    draws g' = draws g /\
    Z.of_nat (pos g') = (Z.of_nat (pos g) + (length - 3) / 2)%Z /\
    (forall k, (2 * Z.of_nat k + 1 < length - 2)%Z ->
               String.get (2 * k + 1) tree =
                 Some (pick (draws g (pos g + k)))).
Proof.
  intros H5 Hodd. unfold generate_tree. rewrite guard_passes by assumption.
  destruct (@while_loop_alternates length _ ["N"%char] g eq_refl)
    as (t0 & g0' & Hrun0 & _ & Hlen0);
    [discriminate | apply alternates_singleton |].
  destruct (@while_loop_draws length g _ ["N"%char] g 0%nat eq_refl)
    as (t & g' & m & Hrun & Hdraws & Hpos & Hlen & Hsym);
    try solve [discriminate | apply alternates_singleton | reflexivity
              | simpl; lia | left; reflexivity].
  rewrite Hrun in Hrun0. injection Hrun0 as <- <-.
  simpl List.length in Hlen0. rewrite Hrun.
  exists (string_of_list_ascii ((t ++ ["R"%char]) ++ ["N"%char])%list), g'.
  split; [reflexivity |]. split; [assumption |]. split.
  - destruct Hodd as [j Hj]. subst length.
    assert (Hm : List.length t = (2 * m + 1)%nat) by lia.
    rewrite Hpos. Z.to_euclidean_division_equations. lia.
  - intros k Hk. rewrite get_joined.
    rewrite !nth_error_app1 by (rewrite ?length_app; simpl; lia).
    apply Hsym. lia.
Qed.

Lemma get_beyond (s : string) (n : nat) :
  (String.length s <= n)%nat -> String.get n s = None.
Proof.
  intros H. destruct (String.get n s) eqn:E; [| reflexivity].
  apply get_Some_lt in E. lia.
Qed.

Lemma pick_rng_for (tree : string) (k : nat) (c : ascii) :
  String.get (2 * k + 1) tree = Some c -> direction c ->
  pick (draws (rng_for tree) k) = c.
Proof.
  intros Hc Hdir. unfold rng_for. cbn [draws]. rewrite Hc.
  destruct Hdir as [-> | ->]; reflexivity.
Qed.

(** X1. For an odd [length >= 5], [generate_tree] calls [random.choice]
    exactly [(length - 3) / 2] times: the generator comes back advanced by
    that many draws and otherwise unchanged. *)
Theorem generate_tree_consumes (length : Z) (g : rng) :
  (5 <= length)%Z -> Z.Odd length ->
  exists tree g',
    generate_tree length g = (Ok tree, g') /\
    draws g' = draws g /\
    Z.of_nat (pos g') = (Z.of_nat (pos g) + (length - 3) / 2)%Z.
Proof.
  intros H5 Hodd.
  destruct (generate_tree_draws g H5 Hodd) as (tree & g' & Hrun & Hd & Hp & _).
  exists tree, g'. auto.
Qed.

Lemma generate_tree_consumes_witness :
  (5 <= 9)%Z /\ Z.Odd 9 /\
  exists tree g',
    generate_tree 9 counting_rng = (Ok tree, g') /\
    draws g' = draws counting_rng /\
    Z.of_nat (pos g') = (Z.of_nat (pos counting_rng) + (9 - 3) / 2)%Z.
Proof.
  assert (H5 : (5 <= 9)%Z) by lia.
  assert (Hodd : Z.Odd 9) by (exists 4%Z; reflexivity).
  split; [exact H5 |].
  split; [exact Hodd | exact (generate_tree_consumes counting_rng H5 Hodd)].
Defined.

(** X2. For an odd [length >= 5], the k-th call of [random.choice] decides
    the symbol at index 2k+1 of the tree, for every odd index below
    [length - 2]: R when the raw draw selects index 0 of ['R', 'L'], L when
    it selects index 1. *)
Theorem generate_tree_symbols (length : Z) (g : rng) :
  (5 <= length)%Z -> Z.Odd length ->
  exists tree g',
    generate_tree length g = (Ok tree, g') /\
    forall k,
      (2 * Z.of_nat k + 1 < length - 2)%Z ->
      String.get (2 * k + 1) tree =
        Some (nth (draws g (pos g + k) mod 2) ["R"%char; "L"%char] "R"%char).
Proof.
  intros H5 Hodd.
  destruct (generate_tree_draws g H5 Hodd) as (tree & g' & Hrun & _ & _ & Hs).
  exists tree, g'. split; [assumption |]. exact Hs.
Qed.

Lemma generate_tree_symbols_witness :
  (5 <= 9)%Z /\ Z.Odd 9 /\
  exists tree g',
    generate_tree 9 counting_rng = (Ok tree, g') /\
    forall k,
      (2 * Z.of_nat k + 1 < 9 - 2)%Z ->
      String.get (2 * k + 1) tree =
        Some (nth (draws counting_rng (pos counting_rng + k) mod 2)
                  ["R"%char; "L"%char] "R"%char).
Proof.
  assert (H5 : (5 <= 9)%Z) by lia.
  assert (Hodd : Z.Odd 9) by (exists 4%Z; reflexivity).
  split; [exact H5 |].
  split; [exact Hodd | exact (generate_tree_symbols counting_rng H5 Hodd)].
Defined.

(** X3. Every strictly alternating tree of odd length at least 5 with R
    second to last is an output of [generate_tree]: the generator whose
    draws spell its direction symbols produces it. *)
Theorem generate_tree_reaches (tree : string) :
  strictly_alternates tree ->
  (5 <= len tree)%Z -> Z.Odd (len tree) ->
  String.get (String.length tree - 2) tree = Some "R"%char ->
  exists g', generate_tree (len tree) (rng_for tree) = (Ok tree, g').
Proof.
  intros Halt H5 Hodd HR.
  destruct (generate_tree_shape (rng_for tree) H5 Hodd)
    as (t & g' & Hrun & Hlen & Halt' & HR').
  destruct (generate_tree_draws (rng_for tree) H5 Hodd)
    as (t1 & g1 & Hrun1 & _ & _ & Hsym).
  rewrite Hrun in Hrun1. injection Hrun1 as <- <-.
  exists g'. rewrite Hrun. f_equal. f_equal.
  unfold len in *. apply Nat2Z.inj in Hlen.
  pose proof (odd_length _ Hodd) as Hpar.
  apply get_correct. intros n.
  destruct (Nat.lt_ge_cases n (String.length tree)) as [Hn | Hn].
  2:{ rewrite !get_beyond by lia. reflexivity. }
  destruct (Nat.even n) eqn:En.
  - rewrite !alternates_even by (assumption || lia). reflexivity.
  - assert (Hk : exists k, n = (2 * k + 1)%nat).
    { apply Nat.odd_spec. rewrite <- Nat.negb_even, En. reflexivity. }
    destruct Hk as [k ->].
    assert (Hlast : (2 * k + 1 <> String.length tree - 1)%nat).
    { intros E. assert (E' : String.length tree = (2 * (k + 1))%nat) by lia.
      rewrite E', even_double in Hpar. discriminate. }
    destruct (Nat.eq_dec (2 * k + 1) (String.length tree - 2)) as [E | E].
    + rewrite E, HR.
      replace (String.length tree - 2)%nat
        with (Z.to_nat (Z.of_nat (String.length tree) - 2)) by lia.
      exact HR'.
    + destruct (alternates_odd Halt (i := 2 * k + 1)) as (c & Hc & Hdir);
        [lia | assumption |].
      rewrite Hc, Hsym by lia. cbn [pos rng_for Nat.add].
      rewrite (pick_rng_for _ _ Hc Hdir). reflexivity.
Qed.

Lemma alternates_NLNRN : strictly_alternates "NLNRN".
Proof.
  intros i c H.
  do 5 (destruct i as [| i];
        [injection H as <-;
         first [reflexivity | left; reflexivity | right; reflexivity] |]).
  discriminate H.
Qed.

Lemma generate_tree_reaches_witness :
  strictly_alternates "NLNRN" /\
  (5 <= len "NLNRN")%Z /\ Z.Odd (len "NLNRN") /\
  String.get (String.length "NLNRN" - 2) "NLNRN" = Some "R"%char /\
  exists g', generate_tree (len "NLNRN") (rng_for "NLNRN") = (Ok "NLNRN", g').
Proof.
  assert (H5 : (5 <= len "NLNRN")%Z) by (unfold len; simpl; lia).
  assert (Hodd : Z.Odd (len "NLNRN")) by (exists 2%Z; reflexivity).
  assert (HR : String.get (String.length "NLNRN" - 2) "NLNRN" = Some "R"%char)
    by reflexivity.
  split; [exact alternates_NLNRN |]. split; [exact H5 |].
  split; [exact Hodd |]. split; [exact HR |].
  exact (generate_tree_reaches alternates_NLNRN H5 Hodd HR).
Defined.

(** ** Names of the copies, continued *)

Section Destinations.

Lemma digits_no_underscore (d : Decimal.uint) :
  ~ In "_"%char (list_ascii_of_string (NilEmpty.string_of_uint d)).
Proof.
  induction d; simpl; intros H;
    try (destruct H as [H | H]; [discriminate H | auto]); auto.
Qed.

Lemma split_first (A : Type) (x : A) (a1 a2 b1 b2 : list A) :
  (a1 ++ x :: b1 = a2 ++ x :: b2)%list ->
  ~ In x a1 -> ~ In x a2 -> a1 = a2 /\ b1 = b2.
Proof.
  revert a2. induction a1 as [| y a1 IH]; intros [| z a2] E H1 H2; simpl in *.
  - injection E as <-. auto.
  - injection E as <- _. exfalso. apply H2. left; reflexivity.
  - injection E as -> _. exfalso. apply H1. left; reflexivity.
  - injection E as <- E. destruct (IH a2 E) as [-> ->]; auto.
Qed.

Lemma split_last (A : Type) (x : A) (l1 l2 d1 d2 : list A) :
  (l1 ++ x :: d1 = l2 ++ x :: d2)%list ->
  ~ In x d1 -> ~ In x d2 -> l1 = l2 /\ d1 = d2.
Proof.
  intros E H1 H2. apply (f_equal (@rev A)) in E.
  rewrite !rev_app_distr in E. simpl in E. rewrite <- !app_assoc in E.
  simpl in E. apply split_first in E.
  - destruct E as [Ed El]. split.
    + rewrite <- (rev_involutive l1), <- (rev_involutive l2), El. reflexivity.
    + rewrite <- (rev_involutive d1), <- (rev_involutive d2), Ed. reflexivity.
  - rewrite <- in_rev. assumption.
  - rewrite <- in_rev. assumption.
Qed.

(** The destination alone names the asset and the index: the numeral has no
    underscore, so the last underscore of the file name separates them. *)
Lemma destination_inj (name name' : string) (i i' : nat) :
  snd (copy_request name i) = snd (copy_request name' i') ->
  name = name' /\ i = i'.
Proof.
  unfold copy_request. cbn [snd]. intros H.
  apply (append_inv_head "static/game_frame_copies/") in H.
  apply (f_equal list_ascii_of_string) in H.
  rewrite !list_ascii_of_append in H.
  change (list_ascii_of_string "_") with ["_"%char] in H.
  rewrite !(app_assoc _ ["_"%char]), !(app_assoc _ _ (list_ascii_of_string ".gif")) in H.
  apply app_inv_tail in H. rewrite <- !app_assoc in H. simpl in H.
  apply split_last in H; try apply digits_no_underscore.
  destruct H as [Hn Hi]. split.
  - apply (f_equal string_of_list_ascii) in Hn.
    rewrite !string_of_list_ascii_of_string in Hn. assumption.
  - apply (f_equal string_of_list_ascii) in Hi.
    rewrite !string_of_list_ascii_of_string in Hi.
    apply str_of_nat_inj. assumption.
Qed.


Lemma descriptor_frame (tree : string) (i : nat) (d : step) :
  descriptor_at tree i = Some d -> In (main_gif_basename d) frames.
Proof.
  intros H. apply descriptor_in_table in H. destruct H as [w H]. simpl in H.
  repeat (destruct H as [H | H]; [injection H as _ <-; simpl; tauto |]).
  contradiction.
Qed.

End Destinations.



(** X5. On every tree the copies of one run go to pairwise distinct
    destination files: no copy overwrites an earlier one. *)
Theorem copies_never_overwritten (tree : string) :
  exists st,
    build tree = Ok st /\
    NoDup (map snd (copyfile st)).
Proof.
  eexists. split; [apply build_appended |]. cbn [copyfile].
  rewrite map_map.
  apply NoDup_map_through with (key := fst); [| apply appended_NoDup].
  intros x y E. apply destination_inj in E. apply E.
Qed.

(** X6. On every tree each copy is a call of [create_gif_copy] on one of
    the six frame names LNL, LNR, RNL, RNR, NLN, NRN and on an index that
    is not the last of the tree; in particular no death animation is ever
    copied. *)
Theorem copies_from_frames (tree : string) :
  exists st,
    build tree = Ok st /\
    Forall (fun r =>
              exists name i,
                In name frames /\
                (i + 1 < String.length tree)%nat /\
                copyfile (create_gif_copy name i initial) = [r])
           (copyfile st).
Proof.
  eexists. split; [apply build_appended |]. cbn [copyfile].
  apply Forall_forall. intros r Hin. apply in_map_iff in Hin.
  destruct Hin as ([i d] & <- & Hin). apply in_appended in Hin.
  exists (main_gif_basename d), i. split; [| split].
  - apply (descriptor_frame _ _ Hin).
  - destruct (Nat.lt_ge_cases (i + 1) (String.length tree)); [assumption |].
    rewrite descriptor_at_last in Hin by lia. discriminate.
  - reflexivity.
Qed.


(** ** What the descriptors say *)

Section Rows.

Lemma row_alternating (w : window) (d : step) :
  In (w, d) lookaside_table -> alternating_window w.
Proof.
  intros H. simpl in H.
  repeat (destruct H as [H | H];
          [injection H as <- _; unfold alternating_window, direction;
           first [left; repeat split; auto; fail
                 | right; repeat split; auto] |]).
  contradiction.
Qed.

Lemma alternating_row (w : window) :
  alternating_window w -> exists d, lookaside w = Some d.
Proof.
  destruct w as [[a b] c].
  intros [(-> & [-> | ->] & ->) | ([-> | ->] & -> & [-> | ->])];
    eexists; reflexivity.
Qed.

Lemma row_names (w : window) (d : step) :
  In (w, d) lookaside_table ->
  main_gif_basename d = spell w /\
  death_gif_basename d = death_name w /\
  direction (branch w) /\
  wrong_button d = String (branch w) "" /\
  opposite (branch w) = Some (correct_button d).
Proof.
  intros H. simpl in H.
  repeat (destruct H as [H | H];
          [injection H as <- <-; unfold direction; cbn; auto 6 |]).
  contradiction.
Qed.

Lemma window_at_components (tree : string) (i : nat) (a b c : ascii) :
  window_at tree i = Some (a, b, c) ->
  String.get i tree = Some a /\
  String.get (i + 1) tree = Some b /\
  (if (i + 2 =? String.length tree)%nat
   then c = "L"%char
   else String.get (i + 2) tree = Some c).
Proof.
  unfold window_at.
  destruct (String.get i tree) as [a'|]; [| discriminate].
  destruct (String.get (i + 1) tree) as [b'|]; [| discriminate].
  destruct (i + 2 =? String.length tree)%nat.
  - intros H. injection H as -> -> <-. auto.
  - destruct (String.get (i + 2) tree) as [c'|]; [| discriminate].
    intros H. injection H as -> -> ->. auto.
Qed.

Lemma substring_two (s : string) :
  forall n a b,
    String.get n s = Some a -> String.get (n + 1) s = Some b ->
    substring n 2 s = String a (String b "").
Proof.
  induction s as [| x s IH]; intros n a b Ha Hb.
  - destruct n; discriminate.
  - destruct n as [| n].
    + simpl in Ha, Hb. injection Ha as ->.
      destruct s as [| y s]; [discriminate |].
      simpl in Hb. injection Hb as ->. simpl. destruct s; reflexivity.
    + simpl in Ha, Hb. simpl. apply IH; assumption.
Qed.

Lemma substring_three (s : string) :
  forall n a b c,
    String.get n s = Some a -> String.get (n + 1) s = Some b ->
    String.get (n + 2) s = Some c ->
    substring n 3 s = String a (String b (String c "")).
Proof.
  induction s as [| x s IH]; intros n a b c Ha Hb Hc.
  - destruct n; discriminate.
  - destruct n as [| n].
    + simpl in Ha, Hb, Hc. injection Ha as ->.
      destruct s as [| y s]; [discriminate |].
      simpl in Hb, Hc. injection Hb as ->.
      destruct s as [| z s]; [discriminate |].
      simpl in Hc. injection Hc as ->. simpl. destruct s; reflexivity.
    + simpl in Ha, Hb, Hc. simpl. apply IH; assumption.
Qed.

(** What a round of the loop appends, if anything. *)
Lemma body_appends (tree : string) (index : nat) (block : ascii)
      (st st' : state) (d : step) :
  String.get index tree = Some block ->
  body tree index block st = Ok st' ->
  sequence st' = (sequence st ++ [d])%list ->
  descriptor_at tree index = Some d.
Proof.
  intros Hb Hbody Hseq. rewrite body_descriptor in Hbody by assumption.
  injection Hbody as <-.
  destruct (descriptor_at tree index) as [d'|].
  - simpl in Hseq. apply app_inv_head in Hseq. congruence.
  - apply (f_equal (@List.length step)) in Hseq.
    rewrite length_app in Hseq. simpl in Hseq. lia.
Qed.

Lemma descriptor_window (tree : string) (i : nat) (d : step) :
  descriptor_at tree i = Some d ->
  exists w, window_at tree i = Some w /\ In (w, d) lookaside_table.
Proof.
  unfold descriptor_at. destruct (window_at tree i) as [w|]; [| discriminate].
  intros H. exists w. split; [reflexivity | apply lookaside_row; assumption].
Qed.

End Rows.

(** X10. The match statement appends a descriptor exactly on the windows
    whose symbols alternate, N-direction-N or direction-N-direction; on
    every other window, whatever its characters, it changes nothing. *)
Theorem match_blocks_alternating (w : window) (index : nat) (st : state) :
  ((exists d, sequence (match_blocks w index st) = (sequence st ++ [d])%list)
   <-> alternating_window w) /\
  (~ alternating_window w -> match_blocks w index st = st).
Proof.
  split; [split |].
  - intros [d Hd]. rewrite sequence_match_blocks in Hd.
    apply app_inv_head in Hd.
    destruct (lookaside w) as [d'|] eqn:E; [| discriminate].
    apply lookaside_row in E. apply (@row_alternating w d' E).
  - intros Hw. destruct (@alternating_row w Hw) as [d Hd].
    exists d. rewrite sequence_match_blocks, Hd. reflexivity.
  - intros Hw. rewrite match_blocks_lookaside.
    destruct (lookaside w) as [d|] eqn:E; [| reflexivity].
    apply lookaside_row in E. destruct (Hw (@row_alternating w d E)).
Qed.

(** X11. In every descriptor that the match statement emits, the success
    animation is named by the three symbols of the window, the death
    animation by the window (when it starts with N) or by its first two
    symbols (otherwise) followed by _DEATH, and the wrong button is the
    side of the branch: the direction symbol among the first two of the
    window. *)
Theorem descriptor_names (w : window) (d : step) :
  emits w d ->
  main_gif_basename d = spell w /\
  death_gif_basename d = death_name w /\
  direction (branch w) /\
  wrong_button d = String (branch w) "".
Proof.
  intros H. apply emits_row in H.
  destruct (@row_names w d H) as (Hm & Hdeath & Hdir & Hw & _). auto.
Qed.

Lemma descriptor_names_witness :
  emits ("N", "L", "N")%char (("R", "NLN"), ("L", "NLN_DEATH")) /\
  main_gif_basename (("R", "NLN"), ("L", "NLN_DEATH")) =
    spell ("N", "L", "N")%char /\
  death_gif_basename (("R", "NLN"), ("L", "NLN_DEATH")) =
    death_name ("N", "L", "N")%char /\
  direction (branch ("N", "L", "N")%char) /\
  wrong_button (("R", "NLN"), ("L", "NLN_DEATH")) =
    String (branch ("N", "L", "N")%char) "".
Proof.
  assert (H : emits ("N", "L", "N")%char (("R", "NLN"), ("L", "NLN_DEATH")))
    by (intros index st; reflexivity).
  split; [exact H | exact (descriptor_names H)].
Defined.

(** X8. When a round of the loop at index [index] appends a descriptor,
    its success animation is named by the tree itself: the three symbols
    [tree[index : index + 3]], or at the second-to-last index the two
    symbols left followed by L. *)
Theorem main_gif_spells_tree (tree : string) (index : nat) (block : ascii)
        (st st' : state) (d : step) :
  String.get index tree = Some block ->
  body tree index block st = Ok st' ->
  sequence st' = (sequence st ++ [d])%list ->
  main_gif_basename d =
    if (index + 2 =? String.length tree)%nat
    then substring index 2 tree ++ "L"
    else substring index 3 tree.
Proof.
  intros Hb Hbody Hseq.
  pose proof (@body_appends tree index block st st' d Hb Hbody Hseq) as Hd.
  destruct (@descriptor_window tree index d Hd) as ([[a b] c] & Hw & Hrow).
  destruct (@row_names (a, b, c) d Hrow) as (-> & _).
  apply window_at_components in Hw. destruct Hw as (Ha & Hnb & Hc).
  destruct (index + 2 =? String.length tree)%nat.
  - subst c. rewrite (@substring_two tree index a b Ha Hnb). reflexivity.
  - rewrite (@substring_three tree index a b c Ha Hnb Hc). reflexivity.
Qed.

Lemma main_gif_spells_tree_witness :
  String.get 1 "NRNLNRN" = Some "R"%char /\
  body "NRNLNRN" 1 "R"%char initial =
    Ok (create_gif_copy "RNL" 1
          (sequence_append initial (("L", "RNL"), ("R", "RN_DEATH")))) /\
  main_gif_basename (("L", "RNL"), ("R", "RN_DEATH")) =
    (if (1 + 2 =? String.length "NRNLNRN")%nat
     then substring 1 2 "NRNLNRN" ++ "L"
     else substring 1 3 "NRNLNRN").
Proof.
  split; [reflexivity |]. split; [reflexivity |].
  exact (@main_gif_spells_tree "NRNLNRN" 1 "R"%char initial _
           (("L", "RNL"), ("R", "RN_DEATH")) eq_refl eq_refl eq_refl).
Defined.

(** In a strictly alternating tree the branch of the window at index [i] is
    the direction symbol at [i] or, when [i] is even, at [i + 1]. *)
Lemma alternating_branch (tree : string) (i : nat) (d : step) (c : ascii) :
  strictly_alternates tree ->
  descriptor_at tree i = Some d ->
  String.get (if Nat.even i then i + 1 else i)%nat tree = Some c ->
  wrong_button d = String c "" /\ opposite c = Some (correct_button d).
Proof.
  intros Halt Hd Hc.
  destruct (@descriptor_window tree i d Hd) as ([[a b] x] & Hw & Hrow).
  destruct (@row_names (a, b, x) d Hrow) as (_ & _ & _ & Hwrong & Hopp).
  apply window_at_components in Hw. destruct Hw as (Ha & Hb & _).
  pose proof (Halt _ _ Ha) as Hpar.
  destruct (Nat.even i).
  - subst a. assert (b = c) by congruence. subst b. auto.
  - assert (a = c) by congruence. subst a.
    cbn [branch] in Hwrong, Hopp.
    rewrite (direction_not_N Hpar) in Hwrong, Hopp. auto.
Qed.

(** X9. In the sequence of a generated tree the steps go in pairs: for
    every odd index 2k+1 of the tree but the last index, holding the
    direction symbol c, the descriptors of steps 2k and 2k+1 both have c
    as wrong button and the opposite of c as correct button. *)
Theorem steps_in_pairs (length : Z) (g : rng) :
  (5 <= length)%Z -> Z.Odd length ->
  exists tree g' st,
    generate_tree length g = (Ok tree, g') /\
    build tree = Ok st /\
    forall k,
      (2 * Z.of_nat k + 1 < length - 1)%Z ->
      exists c d1 d2,
        String.get (2 * k + 1) tree = Some c /\
        direction c /\
        nth_error (sequence st) (2 * k) = Some d1 /\
        nth_error (sequence st) (2 * k + 1) = Some d2 /\
        wrong_button d1 = String c "" /\
        wrong_button d2 = String c "" /\
        opposite c = Some (correct_button d1) /\
        opposite c = Some (correct_button d2).
Proof.
  intros H5 Hodd.
  destruct (generate_tree_shape g H5 Hodd)
    as (tree & g' & Hrun & Hlen & Halt & _).
  assert (Hpar : Nat.even (String.length tree) = false)
    by (apply odd_length; rewrite Hlen; assumption).
  unfold len in Hlen.
  exists tree, g'. eexists. split; [exact Hrun |].
  split; [apply build_appended |]. cbn [sequence].
  intros k Hk.
  destruct (alternates_odd Halt (i := 2 * k + 1)) as (c & Hc & Hdir);
    [lia | apply even_double_succ |].
  destruct (alternating_nth Halt Hpar (i := 2 * k)) as (d1 & Hd1 & Hn1); [lia |].
  destruct (alternating_nth Halt Hpar (i := 2 * k + 1)) as (d2 & Hd2 & Hn2);
    [lia |].
  assert (H1 : wrong_button d1 = String c "" /\
               opposite c = Some (correct_button d1)).
  { apply (@alternating_branch tree (2 * k) d1 c Halt Hd1).
    rewrite even_double. exact Hc. }
  assert (H2 : wrong_button d2 = String c "" /\
               opposite c = Some (correct_button d2)).
  { apply (@alternating_branch tree (2 * k + 1) d2 c Halt Hd2).
    rewrite even_double_succ. exact Hc. }
  exists c, d1, d2. rewrite !nth_error_map, Hn1, Hn2.
  destruct H1, H2. repeat split; assumption.
Qed.

Lemma steps_in_pairs_witness :
  (5 <= 7)%Z /\ Z.Odd 7 /\
  exists tree g' st,
    generate_tree 7 counting_rng = (Ok tree, g') /\
    build tree = Ok st /\
    forall k,
      (2 * Z.of_nat k + 1 < 7 - 1)%Z ->
      exists c d1 d2,
        String.get (2 * k + 1) tree = Some c /\
        direction c /\
        nth_error (sequence st) (2 * k) = Some d1 /\
        nth_error (sequence st) (2 * k + 1) = Some d2 /\
        wrong_button d1 = String c "" /\
        wrong_button d2 = String c "" /\
        opposite c = Some (correct_button d1) /\
        opposite c = Some (correct_button d2).
Proof.
  assert (H5 : (5 <= 7)%Z) by lia.
  assert (Hodd : Z.Odd 7) by (exists 3%Z; reflexivity).
  split; [exact H5 |].
  split; [exact Hodd | exact (steps_in_pairs counting_rng H5 Hodd)].
Defined.
